(** * entipy: a shallow embedding of the clustering core

    Models [src/src/entipy/datamodels.py] (Field, Reference, Cluster, Pair)
    and [src/src/entipy/resolvers.py] (SerialResolver, MergeResolver).

    Modelling choices:
    - Python floats are modelled by the reals [R]; [math.log] is [ln].
    - Field values are strings; a Python [None] value is [None].
    - A Python dict used as [cluster_map] is an association list kept in
      insertion order (the iteration order of a Python dict).
    - The process-wide counter [id_seq] is threaded as a [nat] state.
    - Python exceptions are the constructors of [exn]; the resolver's
      [while True] loops are run with fuel, and running out of fuel is the
      separate outcome [OutOfFuel] (never a Python behaviour). *)

From Stdlib Require Import List String Bool Arith Lia.
From Stdlib Require Import Reals Lra Permutation.
Import ListNotations.
Open Scope R_scope.

(** ** Exceptions and the state/error monad *)

Inductive exn : Type :=
| AttributeError
| KeyError (key : nat)
| OutOfFuel.

Inductive result (A : Type) : Type :=
| Ok (a : A)
| Err (e : exn).
Arguments Ok {A} a.
Arguments Err {A} e.

(** Computations that may mint fresh object ids from [id_seq]. *)
Definition M (A : Type) : Type := nat -> result (A * nat).

Definition ret {A} (a : A) : M A := fun n => Ok (a, n).
Definition bind {A B} (m : M A) (k : A -> M B) : M B :=
  fun n => match m n with
           | Ok (a, n') => k a n'
           | Err e => Err e
           end.
Definition raise {A} (e : exn) : M A := fun _ => Err e.

(** [next(id_seq)] *)
Definition next_id : M nat := fun n => Ok (n, S n).

(** Pure fallible computations (no id minted) lift into [M]. *)
Definition lift {A} (o : option A) (e : exn) : M A :=
  match o with Some a => ret a | None => raise e end.

Notation "x <- m ;; k" := (bind m (fun x => k))
  (at level 61, m at next level, right associativity).
Notation "' p <- m ;; k" := (bind m (fun x => match x with p => k end))
  (at level 61, p pattern, m at next level, right associativity).

(** ** Field *)

Definition Val := string.

(** A Field subclass: its class attributes and its [compare] method
    (called as [self_field.compare(other_field)], here on the two values). *)
Record FieldClass := {
  true_match_probability : R;
  false_match_probability : R;
  exclude : bool;
  fcompare : Val -> Val -> bool
}.

(** The base [Field]: probabilities 0.9 / 0.1, [compare] is value equality,
    no [exclude] attribute ([getattr(f, 'exclude', False)] is [False]). *)
Definition Field : FieldClass := {|
  true_match_probability := 9 / 10;
  false_match_probability := 1 / 10;
  exclude := false;
  fcompare := String.eqb
|}.

(** ** Reference *)

(** [r_schema]: the class attributes of the Reference subclass that are Field
    subclasses; [r_values]: the keyword arguments given at construction
    (a Python [None] value is [None]); [r_blocking_keys]: the
    [blocking_keys] dict. *)
Record Reference := {
  r_oid : nat;
  r_schema : list (string * FieldClass);
  r_values : list (string * option Val);
  r_blocking_keys : list (string * string)
}.

Fixpoint assoc {A} (k : string) (l : list (string * A)) : option A :=
  match l with
  | [] => None
  | (k', a) :: t => if String.eqb k k' then Some a else assoc k t
  end.

(** [SortedSet] of field names: insertion into a sorted list. *)
Fixpoint insert_sorted (s : string) (l : list string) : list string :=
  match l with
  | [] => [s]
  | h :: t => if String.ltb s h then s :: h :: t
              else if String.eqb s h then h :: t
              else h :: insert_sorted s t
  end.

Definition field_names (r : Reference) : list string :=
  fold_left (fun acc kv => insert_sorted (fst kv) acc) (r_values r) [].

(** [getattr(r, field_name)] for a field name: the Field instance built at
    construction when the name was passed, otherwise the Field class itself,
    whose [value] is absent; [None] is the [AttributeError] raised when the
    Reference's class has no such attribute. The result pairs the field's
    class with [getattr(field, 'value', None)]. *)
Definition getattr_field (r : Reference) (name : string)
  : option (FieldClass * option Val) :=
  match assoc name (r_schema r) with
  | None => None
  | Some fc =>
      Some (fc, match assoc name (r_values r) with
                | Some v => v
                | None => None
                end)
  end.

(** [Reference._fellegi_sunter_adjustment] *)
Definition fellegi_sunter_adjustment (eq : bool) (tp fp : R) : R :=
  if eq then ln (tp / fp) else ln ((1 - tp) / (1 - fp)).

(** The loop of [Reference.compare]; [None] is the [AttributeError] of
    [getattr(other, field_name)]. *)
Fixpoint compare_loop (self other : Reference) (names : list string)
  (score : R) : option R :=
  match names with
  | [] => Some score
  | field_name :: rest =>
      match getattr_field self field_name, getattr_field other field_name with
      | Some (sfc, Some sv), Some (ofc, Some ov) =>
          if exclude sfc || exclude ofc then compare_loop self other rest score
          else
            let field_match := fcompare sfc sv ov in
            let field_score :=
              fellegi_sunter_adjustment field_match
                (true_match_probability sfc) (false_match_probability sfc) in
            compare_loop self other rest (score + field_score)
      | Some _, Some _ => compare_loop self other rest score
      | _, _ => None
      end
  end.

(** [Reference.compare] *)
Definition compare (self other : Reference) : option R :=
  compare_loop self other (field_names self) 0.

(** The [blocking_keys] dict set by [Reference.__init__]: the computed
    [{name: compute()}] of the declared BlockingKey classes, or the dummy
    [{'BK': '0'}] when there is none. *)
Definition init_blocking_keys (computed : list (string * string))
  : list (string * string) :=
  match computed with
  | [] => [("BK"%string, "0"%string)]
  | _ => computed
  end.

(** ** Cluster *)

Record Cluster := {
  c_oid : nat;
  references : list Reference
}.

(** Reference equality and hashing are by [oid]. *)
Definition ref_mem (r : Reference) (l : list Reference) : bool :=
  existsb (fun r' => Nat.eqb (r_oid r) (r_oid r')) l.

(** [set.union] of two reference sets. *)
Definition ref_union (l1 l2 : list Reference) : list Reference :=
  l1 ++ filter (fun r => negb (ref_mem r l1)) l2.

(** The key names of [Cluster.blocking_keys]. *)
Definition cluster_bk_names (c : Cluster) : list string :=
  nodup string_dec (flat_map (fun r => map fst (r_blocking_keys r)) (references c)).

(** [c.blocking_keys.get(bkn)]: the set of values the member references
    have for [bkn], present when some member has the name. *)
Definition cluster_blocking_keys (c : Cluster) (bkn : string)
  : option (list string) :=
  if existsb (String.eqb bkn) (cluster_bk_names c) then
    Some (nodup string_dec
            (flat_map (fun r => match assoc bkn (r_blocking_keys r) with
                                | Some v => [v]
                                | None => []
                                end) (references c)))
  else None.

(** [Cluster.has_common_block] *)
Definition has_common_block (self other : Cluster) : bool :=
  let blocking_key_names :=
    nodup string_dec (cluster_bk_names self ++ cluster_bk_names other) in
  existsb (fun bkn =>
    match cluster_blocking_keys self bkn, cluster_blocking_keys other bkn with
    | Some self_bkvs, Some other_bkvs =>
        existsb (fun v => existsb (String.eqb v) other_bkvs) self_bkvs
    | _, _ => false
    end) blocking_key_names.

(** The double loop [for ref_1 in self.references: for ref_2 in
    other.references: score += ref_1.compare(ref_2)]. *)
Fixpoint compare_refs_inner (ref_1 : Reference) (refs_2 : list Reference)
  (score : R) : option R :=
  match refs_2 with
  | [] => Some score
  | ref_2 :: rest =>
      match compare ref_1 ref_2 with
      | Some s => compare_refs_inner ref_1 rest (score + s)
      | None => None
      end
  end.

Fixpoint compare_refs (refs_1 refs_2 : list Reference) (score : R)
  : option R :=
  match refs_1 with
  | [] => Some score
  | ref_1 :: rest =>
      match compare_refs_inner ref_1 refs_2 score with
      | Some s => compare_refs rest refs_2 s
      | None => None
      end
  end.

(** Python's [<=] and [<] on floats. *)
Definition Rleb (x y : R) : bool := if Rle_dec x y then true else false.
Definition Rltb (x y : R) : bool := if Rlt_dec x y then true else false.

(** Python's [max(0, score)]. *)
Definition max0 (score : R) : R := if Rltb 0 score then score else 0.

(** [Cluster.compare] *)
Definition cluster_compare (self other : Cluster) : option R :=
  if negb (has_common_block self other) then Some 0
  else compare_refs (references self) (references other) 0.

(** [Cluster.weightsum] *)
Definition weightsum (self other : Cluster) : option R :=
  if negb (has_common_block self other) then Some 0
  else match compare_refs (references self) (references other) 0 with
       | Some score => Some (max0 score)
       | None => None
       end.

(** [Cluster.merge]: a new Cluster, with a fresh oid, on the union. *)
Definition merge (self other : Cluster) : M Cluster :=
  oid <- next_id ;;
  ret {| c_oid := oid; references := ref_union (references self) (references other) |}.

(** ** Pair *)

Record Pair := {
  cluster_oid_1 : nat;
  cluster_oid_2 : nat;
  possible_improvement : R
}.

Definition mk_pair (o1 o2 : nat) (w : R) : Pair :=
  {| cluster_oid_1 := Nat.min o1 o2; cluster_oid_2 := Nat.max o1 o2;
     possible_improvement := w |}.

(** [SortedSet.pop()] on a set of Pairs ordered by [possible_improvement]:
    Pairs of equal score stay in insertion order, so the last inserted of
    the maximal ones is popped. [None] when the set is empty. *)
Definition pop_max (ps : list Pair) : option Pair :=
  fold_left (fun best p =>
    match best with
    | None => Some p
    | Some b => if Rltb (possible_improvement p) (possible_improvement b)
                then Some b else Some p
    end) ps None.

(** One step of the fold of [pop_max]. *)
Definition pop_step (best : option Pair) (p : Pair) : option Pair :=
  match best with
  | None => Some p
  | Some b => if Rltb (possible_improvement p) (possible_improvement b)
              then Some b else Some p
  end.

(** ** Cluster maps: Python dicts [{oid: cluster}] in insertion order *)

Definition cmap := list (nat * Cluster).

Fixpoint dict_get {A} (k : nat) (d : list (nat * A)) : option A :=
  match d with
  | [] => None
  | (k', v) :: t => if Nat.eqb k k' then Some v else dict_get k t
  end.

(** [d[k] = v] *)
Fixpoint dict_set {A} (k : nat) (v : A) (d : list (nat * A)) : list (nat * A) :=
  match d with
  | [] => [(k, v)]
  | (k', v') :: t => if Nat.eqb k k' then (k, v) :: t else (k', v') :: dict_set k v t
  end.

(** [del d[k]], [None] being the [KeyError]. *)
Definition dict_del {A} (k : nat) (d : list (nat * A)) : option (list (nat * A)) :=
  match dict_get k d with
  | Some _ => Some (filter (fun kv => negb (Nat.eqb (fst kv) k)) d)
  | None => None
  end.

(** ** SerialResolver: [_cluster_pass], [_cluster_solve], [_cluster_stream] *)

(** The double loop of [_cluster_pass] collecting the candidates:
    [if oid_1 >= oid_2: continue]; [if weightsum <= 0: continue].
    [SortedSet.add] ignores a Pair equal to one already present; the Pairs
    enumerated here have pairwise distinct [(oid_1, oid_2)] (dict keys are
    unique), so adding appends. [None] is an exception of [compare]. *)
Fixpoint pass_candidates_inner (oid_1 : nat) (cluster_1 : Cluster) (cm : cmap)
  (candidates : list Pair) : option (list Pair) :=
  match cm with
  | [] => Some candidates
  | (oid_2, cluster_2) :: rest =>
      if Nat.leb oid_2 oid_1 then pass_candidates_inner oid_1 cluster_1 rest candidates
      else match weightsum cluster_1 cluster_2 with
           | None => None
           | Some w =>
               if Rleb w 0 then pass_candidates_inner oid_1 cluster_1 rest candidates
               else pass_candidates_inner oid_1 cluster_1 rest
                      (candidates ++ [mk_pair oid_1 oid_2 w])
           end
  end.

Fixpoint pass_candidates (outer cm : cmap) (candidates : list Pair)
  : option (list Pair) :=
  match outer with
  | [] => Some candidates
  | (oid_1, cluster_1) :: rest =>
      match pass_candidates_inner oid_1 cluster_1 cm candidates with
      | Some cs => pass_candidates rest cm cs
      | None => None
      end
  end.

(** [SerialResolver._cluster_pass] *)
Definition cluster_pass (cluster_map : cmap) : M (cmap * bool) :=
  candidates <- lift (pass_candidates cluster_map cluster_map []) AttributeError ;;
  match pop_max candidates with
  | None => ret (cluster_map, true)
  | Some best_pair =>
      let oid_1 := cluster_oid_1 best_pair in
      let oid_2 := cluster_oid_2 best_pair in
      cluster_1 <- lift (dict_get oid_1 cluster_map) (KeyError oid_1) ;;
      cluster_2 <- lift (dict_get oid_2 cluster_map) (KeyError oid_2) ;;
      merged_cluster <- merge cluster_1 cluster_2 ;;
      let merged_oid := c_oid merged_cluster in
      cm1 <- lift (dict_del oid_1 cluster_map) (KeyError oid_1) ;;
      cm2 <- lift (dict_del oid_2 cm1) (KeyError oid_2) ;;
      ret (dict_set merged_oid merged_cluster cm2, false)
  end.

(** The [while True] loop of [SerialResolver._cluster_solve], with fuel. *)
Fixpoint cluster_solve_loop (fuel : nat) (cluster_map : cmap) (changed : bool)
  : M (cmap * bool) :=
  match fuel with
  | O => raise OutOfFuel
  | S fuel' =>
      '(cm, is_optimal) <- cluster_pass cluster_map ;;
      if is_optimal then ret (cm, changed)
      else cluster_solve_loop fuel' cm true
  end.

(** [SerialResolver._cluster_solve]; the fuel of one pass per cluster is never exhausted. *)
Definition cluster_solve (cluster_map : cmap) : M (cmap * bool) :=
  cluster_solve_loop (S (List.length cluster_map)) cluster_map false.

(** The argument of [_cluster_stream]: a Reference or a Cluster. *)
Inductive Observation :=
| ObsReference (r : Reference)
| ObsCluster (c : Cluster).

(** [Cluster(set([r]))] or [Cluster(c.references)]. *)
Definition new_cluster_of (o : Observation) : M Cluster :=
  oid <- next_id ;;
  match o with
  | ObsReference r => ret {| c_oid := oid; references := [r] |}
  | ObsCluster c => ret {| c_oid := oid; references := references c |}
  end.

(** The Pairs of the completion loop: [if active_oid == oid: continue];
    [if weightsum <= 0: continue]. *)
Fixpoint stream_pairs_inner (active_oid : nat) (active_cluster : Cluster)
  (cm : cmap) (pair_set : list Pair) : option (list Pair) :=
  match cm with
  | [] => Some pair_set
  | (oid, cluster) :: rest =>
      if Nat.eqb active_oid oid then stream_pairs_inner active_oid active_cluster rest pair_set
      else match weightsum active_cluster cluster with
           | None => None
           | Some w =>
               if Rleb w 0 then stream_pairs_inner active_oid active_cluster rest pair_set
               else stream_pairs_inner active_oid active_cluster rest
                      (pair_set ++ [mk_pair active_oid oid w])
           end
  end.

Fixpoint stream_pairs (active cm : cmap) (pair_set : list Pair)
  : option (list Pair) :=
  match active with
  | [] => Some pair_set
  | (active_oid, active_cluster) :: rest =>
      match stream_pairs_inner active_oid active_cluster cm pair_set with
      | Some ps => stream_pairs rest cm ps
      | None => None
      end
  end.

(** [for oid, cluster in solution.items(): if cluster_map.get(oid): continue;
    cluster_map[oid] = cluster; active_clusters[oid] = cluster] *)
Definition absorb_solution (solution cm : cmap) : cmap * cmap :=
  fold_left (fun acc kv =>
    let '(cm', active) := acc in
    let '(oid, cluster) := kv in
    match dict_get oid cm' with
    | Some _ => (cm', active)
    | None => (dict_set oid cluster cm', dict_set oid cluster active)
    end) solution (cm, []).

(** [if not solution.get(oid): del cluster_map[oid]] *)
Definition drop_if_absent (solution : cmap) (oid : nat) (cm : cmap) : M cmap :=
  match dict_get oid solution with
  | Some _ => ret cm
  | None => lift (dict_del oid cm) (KeyError oid)
  end.

(** The completion loop of [_cluster_stream], with fuel. A missing cluster
    in the local map would make [_cluster_pass] call [weightsum] on [None]:
    an [AttributeError]. *)
Fixpoint stream_loop (fuel : nat) (active_clusters cluster_map : cmap) : M cmap :=
  match fuel with
  | O => raise OutOfFuel
  | S fuel' =>
      pair_set <- lift (stream_pairs active_clusters cluster_map []) AttributeError ;;
      match pop_max pair_set with
      | None => ret cluster_map
      | Some best_pair =>
          let cluster_oid_1 := cluster_oid_1 best_pair in
          let cluster_oid_2 := cluster_oid_2 best_pair in
          cluster_1 <- lift (dict_get cluster_oid_1 cluster_map) AttributeError ;;
          cluster_2 <- lift (dict_get cluster_oid_2 cluster_map) AttributeError ;;
          let local_cluster_map := [(cluster_oid_1, cluster_1); (cluster_oid_2, cluster_2)] in
          '(solution, _) <- cluster_solve local_cluster_map ;;
          let '(cm1, active) := absorb_solution solution cluster_map in
          cm2 <- drop_if_absent solution cluster_oid_1 cm1 ;;
          cm3 <- drop_if_absent solution cluster_oid_2 cm2 ;;
          stream_loop fuel' active cm3
      end
  end.

(** [SerialResolver._cluster_stream] *)
Definition cluster_stream (new_observations : Observation) (cluster_map : cmap)
  : M cmap :=
  new_cluster <- new_cluster_of new_observations ;;
  let new_oid := c_oid new_cluster in
  let cm := dict_set new_oid new_cluster cluster_map in
  stream_loop (S (S (List.length cm))) [(new_oid, new_cluster)] cm.

Module SerialResolver.

(** The state used by [resolve], [add] and the getters; [pair_set],
    [candidate_set], [cluster_pairs] and the block indexes are never read. *)
Record t := {
  references : list Reference;
  clusters : list Cluster;
  cluster_map : cmap
}.

(** [SerialResolver(references)] *)
Definition init (refs : list Reference) : t :=
  {| references := refs; clusters := []; cluster_map := [] |}.

Fixpoint resolve_loop (refs : list Reference) (cm : cmap) : M cmap :=
  match refs with
  | [] => ret cm
  | reference :: rest =>
      cm' <- cluster_stream (ObsReference reference) cm ;;
      resolve_loop rest cm'
  end.

(** [SerialResolver.resolve] *)
Definition resolve (sr : t) : M t :=
  cm <- resolve_loop (references sr) (cluster_map sr) ;;
  ret {| references := []; clusters := clusters sr; cluster_map := cm |}.

(** The argument of [add]: a single Reference or a list of them. *)
Inductive add_arg :=
| AddOne (r : Reference)
| AddList (rs : list Reference).

(** [SerialResolver.add] *)
Definition add (sr : t) (new_observation : add_arg) : t :=
  {| references := match new_observation with
                   | AddList rs => references sr ++ rs
                   | AddOne r => references sr ++ [r]
                   end;
     clusters := clusters sr; cluster_map := cluster_map sr |}.

(** A client's sequence of calls. *)
Inductive op :=
| OpAdd (a : add_arg)
| OpResolve.

Fixpoint run (ops : list op) (sr : t) : M t :=
  match ops with
  | [] => ret sr
  | OpAdd a :: rest => run rest (add sr a)
  | OpResolve :: rest => sr' <- resolve sr ;; run rest sr'
  end.

(** [get_clusters] *)
Definition get_clusters (sr : t) : list Cluster := map snd (cluster_map sr).

(** [SerialResolver(None, _clusters=cs)], the constructor MergeResolver
    uses: the queue is empty and the map is [{c.oid: c for c in _clusters}];
    [self.references] is left unset there, and nothing on the paths from
    this constructor ([_add_clusters], [_resolve_clusters], [get_clusters])
    reads it. *)
Definition init_clusters (cs : list Cluster) : t :=
  {| references := []; clusters := [];
     cluster_map := fold_left (fun cm c => dict_set (c_oid c) c cm) cs [] |}.

(** [_add_clusters]: [self.clusters.extend(clusters)] *)
Definition add_clusters (sr : t) (cs : list Cluster) : t :=
  {| references := references sr; clusters := clusters sr ++ cs;
     cluster_map := cluster_map sr |}.

(** [for c in self.clusters:
       self.cluster_map = self._cluster_stream(c, self.cluster_map)] *)
Fixpoint resolve_clusters_loop (cs : list Cluster) (cm : cmap) : M cmap :=
  match cs with
  | [] => ret cm
  | c :: rest =>
      cm' <- cluster_stream (ObsCluster c) cm ;;
      resolve_clusters_loop rest cm'
  end.

(** [_resolve_clusters] *)
Definition resolve_clusters (sr : t) : M t :=
  cm <- resolve_clusters_loop (clusters sr) (cluster_map sr) ;;
  ret {| references := references sr; clusters := []; cluster_map := cm |}.

End SerialResolver.

Module MergeResolver.

Record t := {
  references : list Reference;
  cluster_map : cmap;
  merge_unit_size : nat
}.

(** [MergeResolver.add]: its body is [pass]. *)
Definition add (mr : t) (new_observation : SerialResolver.add_arg) : t := mr.

(** [MergeResolver(references, merge_unit_size=k)] *)
Definition init (refs : list Reference) (k : nat) : t :=
  {| references := refs; cluster_map := []; merge_unit_size := k |}.

(** The slices [l[n : n + k]] for [n in range(0, len(l), k)], for [k > 0];
    [len(l)] bounds the number of slices. *)
Fixpoint slices {A} (fuel k : nat) (l : list A) : list (list A) :=
  match fuel with
  | O => []
  | S fuel' =>
      match l with
      | [] => []
      | _ => firstn k l :: slices fuel' k (skipn k l)
      end
  end.

(** The [portions] of [resolve]; [None] is the [ValueError] that [range]
    raises on a zero step. *)
Definition portions (k : nat) (refs : list Reference) : option (list (list Reference)) :=
  match k with
  | O => None
  | S _ => Some (slices (List.length refs) k refs)
  end.

(** [SerialResolver(portion)] for each portion, then [sr.resolve()] for
    each, in order. *)
Fixpoint resolve_portions (ps : list (list Reference)) : M (list SerialResolver.t) :=
  match ps with
  | [] => ret []
  | portion :: rest =>
      sr <- SerialResolver.resolve (SerialResolver.init portion) ;;
      srs <- resolve_portions rest ;;
      ret (sr :: srs)
  end.

(** The merge of a pair [sr_a, sr_b] of a layer. *)
Definition merge_pair (sr_a sr_b : SerialResolver.t) : M SerialResolver.t :=
  let sr := SerialResolver.init_clusters (SerialResolver.get_clusters sr_a) in
  let sr := SerialResolver.add_clusters sr (SerialResolver.get_clusters sr_b) in
  SerialResolver.resolve_clusters sr.

(** One layer of the pyramiding merge: the pairs [layer_a[n : n + 2]] in
    order, a last single resolver passed on as it is. *)
Fixpoint pyramid_layer (layer_a : list SerialResolver.t) : M (list SerialResolver.t) :=
  match layer_a with
  | sr_a :: sr_b :: rest =>
      sr <- merge_pair sr_a sr_b ;;
      layer_b <- pyramid_layer rest ;;
      ret (sr :: layer_b)
  | _ => ret layer_a
  end.

(** The [while True] loop of the pyramiding merge, with fuel: it stops on a
    layer of a single resolver, and returns that resolver. *)
Fixpoint pyramid (fuel : nat) (layer_a : list SerialResolver.t) : M SerialResolver.t :=
  match fuel with
  | O => raise OutOfFuel
  | S fuel' =>
      layer_b <- pyramid_layer layer_a ;;
      match layer_b with
      | [new_sr] => ret new_sr
      | _ => pyramid fuel' layer_b
      end
  end.

(** [MergeResolver.resolve]. [None] is the [ValueError] of [range] when
    [merge_unit_size] is 0, raised before anything else happens. The
    pyramid gets one iteration per portion resolver. *)
Definition resolve (mr : t) : option (M t) :=
  match portions (merge_unit_size mr) (references mr) with
  | None => None
  | Some ps => Some (
      serial_resolvers <- resolve_portions ps ;;
      new_sr <- pyramid (S (List.length serial_resolvers)) serial_resolvers ;;
      let main_sr := SerialResolver.init_clusters (map snd (cluster_map mr)) in
      let main_sr := SerialResolver.add_clusters main_sr (SerialResolver.get_clusters new_sr) in
      main_sr' <- SerialResolver.resolve_clusters main_sr ;;
      ret {| references := references mr;
             cluster_map := SerialResolver.cluster_map main_sr';
             merge_unit_size := merge_unit_size mr |})
  end.

End MergeResolver.

(** ** Specification-side notions *)

(** Sum of a list of fallible scores: [None] as soon as one raised. *)
Definition opt_add (o acc : option R) : option R :=
  match o, acc with
  | Some x, Some s => Some (x + s)
  | _, _ => None
  end.

Definition sum_opt (l : list (option R)) : option R := fold_right opt_add (Some 0) l.

(** The scores [r1.compare(r2)] over the Cartesian product [refs_1 x refs_2]. *)
Definition product_scores (refs_1 refs_2 : list Reference) : list (option R) :=
  flat_map (fun r1 => map (compare r1) refs_2) refs_1.

(** The references passed to [add] in a sequence of calls. *)
Fixpoint ops_refs (ops : list SerialResolver.op) : list Reference :=
  match ops with
  | [] => []
  | SerialResolver.OpAdd (SerialResolver.AddOne r) :: rest => r :: ops_refs rest
  | SerialResolver.OpAdd (SerialResolver.AddList rs) :: rest => rs ++ ops_refs rest
  | SerialResolver.OpResolve :: rest => ops_refs rest
  end.

(** No two distinct entries of a cluster map have positive weightsum. *)
Definition locally_optimal (cm : cmap) : Prop :=
  forall k1 c1 k2 c2 w,
    In (k1, c1) cm -> In (k2, c2) cm -> k1 <> k2 ->
    weightsum c1 c2 = Some w -> w <= 0.

(** A well-formed cluster map: unique keys, all minted before [n]. *)
Definition wf_cmap (cm : cmap) (n : nat) : Prop :=
  NoDup (map fst cm) /\ forall k, In k (map fst cm) -> (k < n)%nat.

(** Every entry of a cluster map is keyed by its own cluster's oid. *)
Definition oid_keyed (cm : cmap) : Prop :=
  forall k c, In (k, c) cm -> c_oid c = k.

(** The references of the cluster [_cluster_stream] builds. *)
Definition observation_references (o : Observation) : list Reference :=
  match o with
  | ObsReference r => [r]
  | ObsCluster c => references c
  end.

(** The references held by the resolvers of a layer of the pyramid. *)
Definition layer_references (layer : list SerialResolver.t) : list Reference :=
  flat_map (fun sr => flat_map references (SerialResolver.get_clusters sr)) layer.

(** Every resolver of a layer has a well-formed map keyed by oids. *)
Definition layer_ok (layer : list SerialResolver.t) (n : nat) : Prop :=
  Forall (fun sr => wf_cmap (SerialResolver.cluster_map sr) n /\
                    oid_keyed (SerialResolver.cluster_map sr)) layer.

(** ** Example references, after the repository's tests *)

(** [SimpleProductReference]: one field [observed_name] of the base Field. *)
Definition simple_schema : list (string * FieldClass) :=
  [("observed_name"%string, Field)].

Definition simple_reference (oid : nat) (name : string) : Reference :=
  {| r_oid := oid; r_schema := simple_schema;
     r_values := [("observed_name"%string, Some name)];
     r_blocking_keys := init_blocking_keys [] |}.

(** [SimpleProductReference(metadata={'id': 7})]: no field populated. *)
Definition r_unpopulated : Reference :=
  {| r_oid := 7; r_schema := simple_schema; r_values := [];
     r_blocking_keys := init_blocking_keys [] |}.

(** A Reference class declaring only a [retail_store] field. *)
Definition store_schema : list (string * FieldClass) :=
  [("retail_store"%string, Field)].

Definition r_store : Reference :=
  {| r_oid := 9; r_schema := store_schema;
     r_values := [("retail_store"%string, Some "SM"%string)];
     r_blocking_keys := init_blocking_keys [] |}.

(** A user Field whose [compare] is [other.value.startswith(self.value)]. *)
Definition PrefixField : FieldClass := {|
  true_match_probability := 9 / 10;
  false_match_probability := 1 / 10;
  exclude := false;
  fcompare := String.prefix
|}.

Definition prefix_schema : list (string * FieldClass) :=
  [("observed_name"%string, PrefixField)].

Definition prefix_reference (oid : nat) (name : string) : Reference :=
  {| r_oid := oid; r_schema := prefix_schema;
     r_values := [("observed_name"%string, Some name)];
     r_blocking_keys := init_blocking_keys [] |}.

Definition r_long : Reference := prefix_reference 0 "Cheese100g".
Definition r_short : Reference := prefix_reference 1 "Cheese".
Definition r_cheese : Reference := simple_reference 0 "PrimeHarvestCheese10Qg".
Definition r_yogurt : Reference := simple_reference 1 "PureGourCetYogurt2.4kg".

(** A cluster map holding one singleton cluster, and a MergeResolver with
    that map and one queued reference. *)
Definition cm_cheese : cmap := [(0%nat, {| c_oid := 0; references := [r_cheese] |})].

Definition mr_example : MergeResolver.t :=
  {| MergeResolver.references := [r_yogurt]; MergeResolver.cluster_map := cm_cheese;
     MergeResolver.merge_unit_size := 500 |}.

(** * Proofs *)

(** ** Real-number helpers *)

Lemma Rltb_true x y : x < y -> Rltb x y = true.
Proof. unfold Rltb; destruct (Rlt_dec x y); tauto. Qed.

Lemma Rltb_false x y : ~ x < y -> Rltb x y = false.
Proof. unfold Rltb; destruct (Rlt_dec x y); tauto. Qed.

Lemma Rleb_true x y : x <= y -> Rleb x y = true.
Proof. unfold Rleb; destruct (Rle_dec x y); tauto. Qed.

Lemma Rleb_false x y : ~ x <= y -> Rleb x y = false.
Proof. unfold Rleb; destruct (Rle_dec x y); tauto. Qed.

Lemma Rleb_spec x y : Rleb x y = true <-> x <= y.
Proof. unfold Rleb; destruct (Rle_dec x y); split; intros; try tauto; discriminate. Qed.

Lemma Rltb_spec x y : Rltb x y = true <-> x < y.
Proof. unfold Rltb; destruct (Rlt_dec x y); split; intros; try tauto; discriminate. Qed.

Lemma max0_Rmax s : max0 s = Rmax 0 s.
Proof.
  unfold max0, Rmax. destruct (Rltb 0 s) eqn:E.
  - apply Rltb_spec in E. destruct (Rle_dec 0 s); lra.
  - destruct (Rle_dec 0 s) as [H|H]; [|reflexivity].
    assert (~ 0 < s) by (intro H'; apply Rltb_spec in H'; congruence). lra.
Qed.

Lemma ln_pos_of_gt1 x : 1 < x -> 0 < ln x.
Proof. intros H. rewrite <- ln_1. apply ln_increasing; lra. Qed.

Lemma ln_neg_of_lt1 x : 0 < x -> x < 1 -> ln x < 0.
Proof. intros H0 H1. rewrite <- ln_1. apply ln_increasing; lra. Qed.

Lemma ln_match_default : 0 < ln (9 / 10 / (1 / 10)).
Proof. apply ln_pos_of_gt1. lra. Qed.

Lemma ln_nomatch_default : ln ((1 - 9 / 10) / (1 - 1 / 10)) < 0.
Proof. apply ln_neg_of_lt1; lra. Qed.

(** Evaluation of the model on concrete inputs: reduce everything but the
    real-number operations, then settle each comparison of reals. *)
Ltac ev := cbv -[Rltb Rleb ln Rplus Rdiv Rminus IZR Rmult Rinv Ropp].
Ltac rdec := match goal with
  | |- context [Rltb ?a ?b] =>
      first [ rewrite (Rltb_true a b) by lra | rewrite (Rltb_false a b) by lra ]
  | |- context [Rleb ?a ?b] =>
      first [ rewrite (Rleb_true a b) by lra | rewrite (Rleb_false a b) by lra ]
  end.
Ltac run_model :=
  pose proof ln_match_default; pose proof ln_nomatch_default;
  ev; repeat (rdec; ev).

(** Evaluation of a resolver run: the example references and [weightsum]
    stay folded, and the weightsums the run needs are rewritten by facts
    computed on their own. *)
Ltac ev_run := cbv -[Rltb Rleb ln Rplus Rdiv Rminus IZR Rmult Rinv Ropp weightsum
                     r_long r_short r_cheese r_yogurt].

(** ** MergeResolver.add *)

(** C9: [MergeResolver.add] leaves the resolver unchanged (its references
    queue, its cluster map and its unit size), whatever its argument. *)
Theorem merge_resolver_add_noop (mr : MergeResolver.t) (a : SerialResolver.add_arg) :
  MergeResolver.references (MergeResolver.add mr a) = MergeResolver.references mr /\
  MergeResolver.cluster_map (MergeResolver.add mr a) = MergeResolver.cluster_map mr /\
  MergeResolver.add mr a = mr.
Proof. repeat split. Qed.

(** ** Blocking *)

Lemma existsb_common (s o : list string) :
  existsb (fun v => existsb (String.eqb v) o) s = true <->
  exists v, In v s /\ In v o.
Proof.
  rewrite existsb_exists. split.
  - intros [v [Hv Ho]]. apply existsb_exists in Ho as [v' [Hv' E]].
    apply String.eqb_eq in E. subst. eauto.
  - intros [v [Hs Ho]]. exists v. split; [exact Hs|].
    apply existsb_exists. exists v. split; [exact Ho | apply String.eqb_refl].
Qed.

Lemma existsb_common_comm (s o : list string) :
  existsb (fun v => existsb (String.eqb v) o) s =
  existsb (fun v => existsb (String.eqb v) s) o.
Proof.
  apply Bool.eq_iff_eq_true. rewrite !existsb_common. firstorder.
Qed.

Lemma has_common_block_iff (c1 c2 : Cluster) :
  has_common_block c1 c2 = true <->
  exists bkn vs1 vs2,
    cluster_blocking_keys c1 bkn = Some vs1 /\ cluster_blocking_keys c2 bkn = Some vs2 /\
    exists v, In v vs1 /\ In v vs2.
Proof.
  unfold has_common_block. rewrite existsb_exists. split.
  - intros [bkn [_ H]].
    destruct (cluster_blocking_keys c1 bkn) as [vs1|] eqn:E1; [|discriminate].
    destruct (cluster_blocking_keys c2 bkn) as [vs2|] eqn:E2; [|discriminate].
    apply existsb_common in H. eauto 8.
  - intros (bkn & vs1 & vs2 & E1 & E2 & Hv). exists bkn. split.
    + apply nodup_In, in_or_app. left.
      unfold cluster_blocking_keys in E1.
      destruct (existsb (String.eqb bkn) (cluster_bk_names c1)) eqn:B; [|discriminate].
      apply existsb_exists in B as [x [Hx Ex]]. apply String.eqb_eq in Ex. now subst.
    + rewrite E1, E2. now apply existsb_common.
Qed.

Lemma has_common_block_comm (c1 c2 : Cluster) :
  has_common_block c1 c2 = has_common_block c2 c1.
Proof.
  apply Bool.eq_iff_eq_true. rewrite !has_common_block_iff. split;
    intros (bkn & vs1 & vs2 & E1 & E2 & v & H1 & H2); exists bkn, vs2, vs1; eauto 7.
Qed.

(** C10: [has_common_block] is symmetric, so [Cluster.compare] and
    [Cluster.weightsum] are short-circuited to 0 in both directions at once. *)
Theorem has_common_block_symmetric (c1 c2 : Cluster) :
  has_common_block c1 c2 = has_common_block c2 c1 /\
  (has_common_block c1 c2 = false ->
     weightsum c1 c2 = Some 0 /\ weightsum c2 c1 = Some 0 /\
     cluster_compare c1 c2 = Some 0 /\ cluster_compare c2 c1 = Some 0).
Proof.
  split; [apply has_common_block_comm|].
  intros H. pose proof H as H'. rewrite has_common_block_comm in H'.
  unfold weightsum, cluster_compare. rewrite H, H'. auto.
Qed.

(** ** Sums over the Cartesian product *)

Lemma sum_opt_app (l1 l2 : list (option R)) :
  sum_opt (l1 ++ l2) =
  match sum_opt l1, sum_opt l2 with
  | Some x, Some y => Some (x + y)
  | _, _ => None
  end.
Proof.
  induction l1 as [|o l1 IH]; simpl.
  - destruct (sum_opt l2); [f_equal; ring | reflexivity].
  - unfold sum_opt in *. simpl. rewrite IH.
    destruct o as [x|], (fold_right opt_add (Some 0) l1) as [s1|],
      (fold_right opt_add (Some 0) l2) as [s2|]; simpl; try reflexivity.
    f_equal; ring.
Qed.

Lemma compare_refs_inner_spec r refs score :
  compare_refs_inner r refs score =
  option_map (Rplus score) (sum_opt (map (compare r) refs)).
Proof.
  revert score. induction refs as [|r2 refs IH]; intros score; simpl.
  - f_equal; ring.
  - destruct (compare r r2) as [x|]; simpl; [|reflexivity].
    rewrite IH. unfold sum_opt. destruct (fold_right opt_add (Some 0) (map (compare r) refs));
      simpl; [f_equal; ring | reflexivity].
Qed.

Lemma compare_refs_spec refs_1 refs_2 score :
  compare_refs refs_1 refs_2 score =
  option_map (Rplus score) (sum_opt (product_scores refs_1 refs_2)).
Proof.
  revert score. induction refs_1 as [|r1 refs_1 IH]; intros score; simpl.
  - f_equal; ring.
  - unfold product_scores. simpl. rewrite sum_opt_app, compare_refs_inner_spec.
    destruct (sum_opt (map (compare r1) refs_2)) as [x|]; simpl; [|reflexivity].
    rewrite IH. unfold product_scores.
    destruct (sum_opt (flat_map (fun r0 => map (compare r0) refs_2) refs_1)); simpl;
      [f_equal; ring | reflexivity].
Qed.

Lemma weightsum_nonneg c1 c2 w : weightsum c1 c2 = Some w -> 0 <= w.
Proof.
  unfold weightsum. destruct (negb (has_common_block c1 c2)).
  - intros [= <-]. lra.
  - destruct (compare_refs _ _ _); [|discriminate]. intros [= <-].
    rewrite max0_Rmax. apply Rmax_l.
Qed.

Lemma disjoint_blocks_no_common (c1 c2 : Cluster) :
  (forall bkn vs1 vs2, cluster_blocking_keys c1 bkn = Some vs1 ->
     cluster_blocking_keys c2 bkn = Some vs2 -> forall v, In v vs1 -> ~ In v vs2) ->
  has_common_block c1 c2 = false.
Proof.
  intros H. apply Bool.not_true_iff_false. rewrite has_common_block_iff.
  intros (bkn & vs1 & vs2 & E1 & E2 & v & H1 & H2). exact (H _ _ _ E1 E2 v H1 H2).
Qed.

(** C3: [Cluster.weightsum] is 0 without a common block and otherwise
    [max(0, sum of r1.compare(r2) over the Cartesian product)]; hence it is
    never negative, and it is 0 when the blocking-key value sets of the two
    clusters are disjoint for every shared key name, whatever the
    per-reference scores (even when a comparison would raise). *)
Theorem weightsum_spec (c1 c2 : Cluster) :
  weightsum c1 c2 =
    (if has_common_block c1 c2
     then option_map (Rmax 0) (sum_opt (product_scores (references c1) (references c2)))
     else Some 0) /\
  (forall w, weightsum c1 c2 = Some w -> 0 <= w) /\
  ((forall bkn vs1 vs2, cluster_blocking_keys c1 bkn = Some vs1 ->
      cluster_blocking_keys c2 bkn = Some vs2 -> forall v, In v vs1 -> ~ In v vs2) ->
   weightsum c1 c2 = Some 0).
Proof.
  split; [|split].
  - unfold weightsum. destruct (has_common_block c1 c2); simpl; [|reflexivity].
    rewrite compare_refs_spec.
    destruct (sum_opt (product_scores (references c1) (references c2))); simpl;
      [|reflexivity].
    rewrite max0_Rmax. f_equal. f_equal. ring.
  - apply weightsum_nonneg.
  - intros H. unfold weightsum. now rewrite (disjoint_blocks_no_common c1 c2 H).
Qed.

(** ** Reference.compare *)

(** C2 (the failing input): [SimpleProductReference(observed_name=...)]
    compared with a Reference whose class declares no [observed_name]:
    [getattr(other, 'observed_name')] raises [AttributeError], so
    [compare] raises instead of counting the absent field as 0. *)
Theorem compare_raises_on_missing_field :
  getattr_field r_store "observed_name" = None /\
  compare r_cheese r_store = None.
Proof. split; reflexivity. Qed.

Lemma insert_sorted_In x s l : In x (insert_sorted s l) <-> x = s \/ In x l.
Proof.
  induction l as [|h t IH]; simpl.
  - intuition congruence.
  - destruct (String.ltb s h); simpl; [intuition congruence|].
    destruct (String.eqb s h) eqn:E; simpl.
    + apply String.eqb_eq in E. subst. intuition congruence.
    + rewrite IH. intuition congruence.
Qed.

Lemma field_names_fold_In x (vals : list (string * option Val)) acc :
  In x (fold_left (fun acc (kv : string * option Val) => insert_sorted (fst kv) acc) vals acc) <->
  In x acc \/ In x (map fst vals).
Proof.
  revert acc. induction vals as [|[k v] vals IH]; intros acc; simpl.
  - tauto.
  - rewrite IH, insert_sorted_In. intuition congruence.
Qed.

Lemma field_names_In x r : In x (field_names r) <-> In x (map fst (r_values r)).
Proof. unfold field_names. rewrite field_names_fold_In. simpl. tauto. Qed.

Lemma assoc_In_fst {A} k (l : list (string * A)) a : assoc k l = Some a -> In k (map fst l).
Proof.
  induction l as [|[k' a'] l IH]; simpl; [discriminate|].
  destruct (String.eqb k k') eqn:E.
  - apply String.eqb_eq in E. auto.
  - auto.
Qed.

Lemma compare_loop_self r names score :
  (forall n, In n names -> assoc n (r_schema r) <> None) ->
  (forall name fc v, assoc name (r_schema r) = Some fc ->
     assoc name (r_values r) = Some (Some v) -> exclude fc = false ->
     fcompare fc v v = true /\
     0 < false_match_probability fc < true_match_probability fc) ->
  exists t, compare_loop r r names score = Some t /\ score <= t /\
    ((exists n fc v, In n names /\ assoc n (r_schema r) = Some fc /\
        assoc n (r_values r) = Some (Some v) /\ exclude fc = false) -> score < t).
Proof.
  intros Hdecl Hfield. revert score.
  induction names as [|n names IH]; intros score; simpl.
  - exists score. split; [reflexivity|]. split; [lra|].
    intros (n & fc & v & [] & _).
  - assert (Hrest : forall n', In n' names -> assoc n' (r_schema r) <> None)
      by (intros n0 Hn0; apply Hdecl; now right).
    specialize (IH Hrest).
    unfold getattr_field.
    destruct (assoc n (r_schema r)) as [fc|] eqn:Hs;
      [|exfalso; apply (Hdecl n); [now left | exact Hs]].
    destruct (assoc n (r_values r)) as [[v|]|] eqn:Hv.
    + rewrite orb_diag. destruct (exclude fc) eqn:Hx.
      * destruct (IH score) as (t & Ht & Hle & Hlt). exists t. split; [exact Ht|].
        split; [exact Hle|]. intros (n' & fc' & v' & [<-|Hin] & Hs' & Hv' & Hx').
        -- congruence.
        -- apply Hlt. exists n', fc', v'. auto.
      * destruct (Hfield n fc v Hs Hv Hx) as [Hc Hp]. rewrite Hc.
        unfold fellegi_sunter_adjustment.
        assert (Hpos : 0 < ln (true_match_probability fc / false_match_probability fc)).
        { apply ln_pos_of_gt1. apply (Rmult_lt_reg_r (false_match_probability fc)); [lra|].
          unfold Rdiv. rewrite Rmult_assoc, Rinv_l by lra. lra. }
        destruct (IH (score + ln (true_match_probability fc / false_match_probability fc)))
          as (t & Ht & Hle & _).
        exists t. split; [exact Ht|]. split; [lra|]. intros _. lra.
    + destruct (IH score) as (t & Ht & Hle & Hlt). exists t. split; [exact Ht|].
      split; [exact Hle|]. intros (n' & fc' & v' & [<-|Hin] & Hs' & Hv' & Hx').
      * congruence.
      * apply Hlt. exists n', fc', v'. auto.
    + destruct (IH score) as (t & Ht & Hle & Hlt). exists t. split; [exact Ht|].
      split; [exact Hle|]. intros (n' & fc' & v' & [<-|Hin] & Hs' & Hv' & Hx').
      * congruence.
      * apply Hlt. exists n', fc', v'. auto.
Qed.

(** C4 (counterexample): [SimpleProductReference(metadata={'id': 7})], with
    no field populated, compares to itself with score 0, not more. *)
Lemma compare_self_unpopulated_zero :
  compare r_unpopulated r_unpopulated = Some 0 /\
  ~ (exists w, compare r_unpopulated r_unpopulated = Some w /\ 0 < w).
Proof.
  split; [reflexivity|]. intros (w & Hw & Hpos).
  assert (Hw0 : compare r_unpopulated r_unpopulated = Some 0) by reflexivity.
  rewrite Hw0 in Hw. injection Hw as <-. lra.
Qed.

(** C4 (amended): a well-formed reference (every keyword it was built with
    is a declared field) compares to itself strictly positively when it has
    at least one populated field without [exclude], and each populated
    field without [exclude] has a comparator that accepts equal values and
    probabilities [0 < p_nomatch < p_match]. *)
Theorem compare_self_positive (r : Reference) :
  (forall name, In name (map fst (r_values r)) -> assoc name (r_schema r) <> None) ->
  (forall name fc v, assoc name (r_schema r) = Some fc ->
     assoc name (r_values r) = Some (Some v) -> exclude fc = false ->
     fcompare fc v v = true /\
     0 < false_match_probability fc < true_match_probability fc) ->
  (exists name fc v, assoc name (r_schema r) = Some fc /\
     assoc name (r_values r) = Some (Some v) /\ exclude fc = false) ->
  exists w, compare r r = Some w /\ 0 < w.
Proof.
  intros Hdecl Hfield (name & fc & v & Hs & Hv & Hx).
  destruct (compare_loop_self r (field_names r) 0) as (t & Ht & _ & Hlt).
  - intros n Hn. apply Hdecl. now apply field_names_In.
  - exact Hfield.
  - exists t. split; [exact Ht|]. apply Hlt. exists name, fc, v.
    repeat split; try assumption. apply field_names_In. eapply assoc_In_fst; eauto.
Qed.

Lemma compare_loop_comm r1 r2 names score :
  r_schema r1 = r_schema r2 ->
  (forall name fc, assoc name (r_schema r1) = Some fc ->
     forall a b, fcompare fc a b = fcompare fc b a) ->
  compare_loop r1 r2 names score = compare_loop r2 r1 names score.
Proof.
  intros Hs Hsym. revert score. induction names as [|n names IH]; intros score; simpl.
  - reflexivity.
  - unfold getattr_field. rewrite <- Hs.
    destruct (assoc n (r_schema r1)) as [fc|] eqn:E; [|reflexivity].
    destruct (assoc n (r_values r1)) as [[a|]|], (assoc n (r_values r2)) as [[b|]|];
      try apply IH.
    rewrite orb_diag. destruct (exclude fc); [apply IH|].
    rewrite (Hsym n fc E a b). apply IH.
Qed.

(** C8 (counterexample): with the user comparator
    [other.value.startswith(self.value)], two references of one schema with
    every field populated score differently in the two directions. *)
Lemma compare_asymmetric_prefix :
  r_schema r_long = r_schema r_short /\
  field_names r_long = field_names r_short /\
  compare r_long r_short <> compare r_short r_long.
Proof.
  split; [reflexivity|]. split; [reflexivity|].
  pose proof ln_match_default. pose proof ln_nomatch_default.
  ev. intros H1. injection H1. lra.
Qed.

(** C8 (amended): two references of the same schema with the same field
    names compare symmetrically when every field's comparator is symmetric. *)
Theorem compare_symmetric_same_schema (r1 r2 : Reference) :
  r_schema r1 = r_schema r2 ->
  field_names r1 = field_names r2 ->
  (forall name fc, assoc name (r_schema r1) = Some fc ->
     forall a b, fcompare fc a b = fcompare fc b a) ->
  compare r1 r2 = compare r2 r1.
Proof.
  intros Hs Hn Hsym. unfold compare. rewrite <- Hn.
  now apply compare_loop_comm.
Qed.

(** ** The priority queue *)

Lemma pop_max_unfold ps : pop_max ps = fold_left pop_step ps None.
Proof. reflexivity. Qed.

Lemma pop_fold_some ps b0 b :
  fold_left pop_step ps (Some b0) = Some b ->
  (b = b0 \/ In b ps) /\ possible_improvement b0 <= possible_improvement b /\
  forall p, In p ps -> possible_improvement p <= possible_improvement b.
Proof.
  revert b0. induction ps as [|p ps IH]; intros b0 H; simpl in *.
  - injection H as <-. split; [auto|]. split; [lra | tauto].
  - destruct (Rltb (possible_improvement p) (possible_improvement b0)) eqn:E.
    + apply Rltb_spec in E. destruct (IH b0 H) as (Hb & Hle & Hall).
      split; [tauto|]. split; [exact Hle|].
      intros q [<-|Hq]; [lra | auto].
    + assert (E' : ~ possible_improvement p < possible_improvement b0)
        by (intro E'; apply Rltb_spec in E'; congruence).
      destruct (IH p H) as (Hb & Hle & Hall).
      split; [destruct Hb as [->|?]; simpl; auto|]. split; [lra|].
      intros q [<-|Hq]; [lra | auto].
Qed.

Lemma pop_fold_not_none ps b0 : fold_left pop_step ps (Some b0) <> None.
Proof.
  revert b0. induction ps as [|p ps IH]; intros b0; simpl; [discriminate|].
  destruct (Rltb _ _); apply IH.
Qed.

Lemma pop_max_None ps : pop_max ps = None -> ps = [].
Proof.
  rewrite pop_max_unfold. destruct ps as [|p ps]; [auto|].
  simpl. intros H. exfalso. exact (pop_fold_not_none ps p H).
Qed.

Lemma pop_max_Some ps b :
  pop_max ps = Some b ->
  In b ps /\ forall p, In p ps -> possible_improvement p <= possible_improvement b.
Proof.
  rewrite pop_max_unfold. destruct ps as [|p ps]; simpl; [discriminate|].
  intros H. destruct (pop_fold_some ps p b H) as (Hb & Hle & Hall).
  split; [destruct Hb as [->|?]; simpl; auto|]. intros q [<-|Hq]; auto.
Qed.

(** ** Dict operations *)

Lemma dict_get_In {A} k (d : list (nat * A)) v : dict_get k d = Some v -> In (k, v) d.
Proof.
  induction d as [|[k' v'] d IH]; simpl; [discriminate|].
  destruct (Nat.eqb k k') eqn:E.
  - apply Nat.eqb_eq in E. intros [= <-]. subst. auto.
  - auto.
Qed.

Lemma In_dict_get {A} k (d : list (nat * A)) v :
  NoDup (map fst d) -> In (k, v) d -> dict_get k d = Some v.
Proof.
  induction d as [|[k' v'] d IH]; simpl; [tauto|].
  intros Hnd Hin. inversion Hnd as [|? ? Hnot Hnd']; subst.
  destruct Hin as [[= -> ->]|Hin].
  - now rewrite Nat.eqb_refl.
  - destruct (Nat.eqb k k') eqn:E; [|auto].
    apply Nat.eqb_eq in E. subst. exfalso. apply Hnot.
    apply (in_map fst) in Hin. exact Hin.
Qed.

Lemma In_dict_get_some {A} k (d : list (nat * A)) v :
  In (k, v) d -> exists v', dict_get k d = Some v'.
Proof.
  induction d as [|[k' v'] d IH]; simpl; [tauto|].
  intros [[= -> ->]|Hin].
  - rewrite Nat.eqb_refl. eauto.
  - destruct (Nat.eqb k k'); eauto.
Qed.

Lemma dict_get_None {A} k (d : list (nat * A)) :
  ~ In k (map fst d) -> dict_get k d = None.
Proof.
  induction d as [|[k' v'] d IH]; simpl; [auto|].
  intros Hn. destruct (Nat.eqb k k') eqn:E.
  - apply Nat.eqb_eq in E. subst. tauto.
  - auto.
Qed.

Lemma dict_del_In {A} k (d : list (nat * A)) v :
  In (k, v) d -> dict_del k d = Some (filter (fun kv => negb (Nat.eqb (fst kv) k)) d).
Proof.
  intros H. unfold dict_del. destruct (In_dict_get_some k d v H) as [v' ->]. reflexivity.
Qed.

Lemma dict_set_fresh {A} k (v : A) d :
  ~ In k (map fst d) -> dict_set k v d = d ++ [(k, v)].
Proof.
  induction d as [|[k' v'] d IH]; simpl; [auto|].
  intros Hn. destruct (Nat.eqb k k') eqn:E.
  - apply Nat.eqb_eq in E. subst. tauto.
  - f_equal. auto.
Qed.

(** ** Candidates of [_cluster_pass] *)

Lemma pass_candidates_inner_sound o1 c1 cm acc cs :
  pass_candidates_inner o1 c1 cm acc = Some cs ->
  forall p, In p cs -> In p acc \/
    exists o2 c2 w, In (o2, c2) cm /\ (o1 < o2)%nat /\ weightsum c1 c2 = Some w /\
      0 < w /\ p = mk_pair o1 o2 w.
Proof.
  revert acc. induction cm as [|[o2 c2] cm IH]; intros acc H p Hp; simpl in H.
  - injection H as <-. auto.
  - destruct (Nat.leb o2 o1) eqn:Hle.
    + destruct (IH acc H p Hp) as [?|(o & c & w & ? & ?)]; [auto|].
      right. exists o, c, w. simpl. tauto.
    + apply Nat.leb_gt in Hle.
      destruct (weightsum c1 c2) as [w|] eqn:Hw; [|discriminate].
      destruct (Rleb w 0) eqn:Hr.
      * destruct (IH acc H p Hp) as [?|(o & c & w' & ? & ?)]; [auto|].
        right. exists o, c, w'. simpl. tauto.
      * destruct (IH _ H p Hp) as [Hin|(o & c & w' & ? & ?)].
        -- apply in_app_or in Hin as [Hin|[<-|[]]]; [auto|].
           right. exists o2, c2, w. simpl. repeat split; auto.
           assert (~ w <= 0) by (intro H'; apply Rleb_spec in H'; congruence). lra.
        -- right. exists o, c, w'. simpl. tauto.
Qed.

Lemma pass_candidates_inner_complete o1 c1 cm acc cs :
  pass_candidates_inner o1 c1 cm acc = Some cs ->
  (forall p, In p acc -> In p cs) /\
  forall o2 c2 w, In (o2, c2) cm -> (o1 < o2)%nat -> weightsum c1 c2 = Some w ->
    0 < w -> In (mk_pair o1 o2 w) cs.
Proof.
  revert acc. induction cm as [|[o2 c2] cm IH]; intros acc H; simpl in H.
  - injection H as <-. split; [auto | intros ? ? ? []].
  - destruct (Nat.leb o2 o1) eqn:Hle.
    + destruct (IH acc H) as [Hacc Hall]. split; [exact Hacc|].
      intros o c w [[= <- <-]|Hin] Hlt; [apply Nat.leb_le in Hle; lia | eauto].
    + destruct (weightsum c1 c2) as [w0|] eqn:Hw; [|discriminate].
      destruct (Rleb w0 0) eqn:Hr.
      * destruct (IH acc H) as [Hacc Hall]. split; [exact Hacc|].
        intros o c w [[= <- <-]|Hin] Hlt Hw' Hpos; [|eauto].
        apply Rleb_spec in Hr. congruence || (rewrite Hw in Hw'; injection Hw' as <-; lra).
      * destruct (IH _ H) as [Hacc Hall]. split.
        -- intros p Hp. apply Hacc. apply in_or_app. auto.
        -- intros o c w [[= <- <-]|Hin] Hlt Hw' Hpos; [|eauto].
           apply Hacc. apply in_or_app. right. rewrite Hw in Hw'.
           injection Hw' as <-. now left.
Qed.

Lemma pass_candidates_sound outer cm acc cs :
  pass_candidates outer cm acc = Some cs ->
  forall p, In p cs -> In p acc \/
    exists o1 c1 o2 c2 w, In (o1, c1) outer /\ In (o2, c2) cm /\ (o1 < o2)%nat /\
      weightsum c1 c2 = Some w /\ 0 < w /\ p = mk_pair o1 o2 w.
Proof.
  revert acc. induction outer as [|[o1 c1] outer IH]; intros acc H p Hp; simpl in H.
  - injection H as <-. auto.
  - destruct (pass_candidates_inner o1 c1 cm acc) as [cs1|] eqn:H1; [|discriminate].
    destruct (IH cs1 H p Hp) as [Hin|(a & b & c & d & e & ?)].
    + destruct (pass_candidates_inner_sound o1 c1 cm acc cs1 H1 p Hin)
        as [?|(o2 & c2 & w & ?)]; [auto|].
      right. exists o1, c1, o2, c2, w. simpl. tauto.
    + right. exists a, b, c, d, e. simpl. tauto.
Qed.

Lemma pass_candidates_complete outer cm acc cs :
  pass_candidates outer cm acc = Some cs ->
  forall o1 c1 o2 c2 w, In (o1, c1) outer -> In (o2, c2) cm -> (o1 < o2)%nat ->
    weightsum c1 c2 = Some w -> 0 < w -> In (mk_pair o1 o2 w) cs.
Proof.
  assert (Hmono : forall outer acc cs, pass_candidates outer cm acc = Some cs ->
            forall p, In p acc -> In p cs).
  { induction outer0 as [|[o1 c1] outer0 IH]; intros acc0 cs0 H p Hp; simpl in H.
    - now injection H as <-.
    - destruct (pass_candidates_inner o1 c1 cm acc0) as [cs1|] eqn:H1; [|discriminate].
      eapply IH; [exact H|]. eapply pass_candidates_inner_complete; eauto. }
  revert acc. induction outer as [|[o1' c1'] outer IH]; intros acc H o1 c1 o2 c2 w Hin;
    simpl in H; [destruct Hin|].
  destruct (pass_candidates_inner o1' c1' cm acc) as [cs1|] eqn:H1; [|discriminate].
  destruct Hin as [[= <- <-]|Hin]; intros; [|eapply IH; eauto].
  eapply Hmono; [exact H|]. eapply pass_candidates_inner_complete; eauto.
Qed.

Lemma mk_pair_lt o1 o2 w :
  (o1 < o2)%nat -> cluster_oid_1 (mk_pair o1 o2 w) = o1 /\ cluster_oid_2 (mk_pair o1 o2 w) = o2.
Proof. intros H. simpl. split; [apply Nat.min_l | apply Nat.max_r]; lia. Qed.

Lemma NoDup_filter_keys {A} (f : nat * A -> bool) (d : list (nat * A)) :
  NoDup (map fst d) -> NoDup (map fst (filter f d)).
Proof.
  induction d as [|[k v] d IH]; simpl; [auto|].
  intros Hnd. inversion Hnd as [|? ? Hnot Hnd']; subst.
  destruct (f (k, v)); simpl; [|auto].
  constructor; [|auto]. intros Hin. apply Hnot.
  apply in_map_iff in Hin as [[k' v'] [Hk Hin]]. simpl in Hk. subst.
  apply filter_In in Hin as [Hin _]. now apply (in_map fst) in Hin.
Qed.

Lemma cluster_pass_cases (cm : cmap) (n : nat) :
  NoDup (map fst cm) ->
  match cluster_pass cm n with
  | Ok ((cm', optimal), n') =>
      (optimal = true /\ cm' = cm /\ n' = n /\
       forall o1 c1 o2 c2 w, In (o1, c1) cm -> In (o2, c2) cm -> (o1 < o2)%nat ->
         weightsum c1 c2 = Some w -> w <= 0)
      \/
      (optimal = false /\ n' = S n /\
       exists o1 c1 o2 c2 w,
         In (o1, c1) cm /\ In (o2, c2) cm /\ (o1 < o2)%nat /\
         weightsum c1 c2 = Some w /\ 0 < w /\
         (forall o1' c1' o2' c2' w', In (o1', c1') cm -> In (o2', c2') cm ->
            (o1' < o2')%nat -> weightsum c1' c2' = Some w' -> w' <= w) /\
         cm' = dict_set n {| c_oid := n; references := ref_union (references c1) (references c2) |}
                 (filter (fun kv => negb (Nat.eqb (fst kv) o2))
                    (filter (fun kv => negb (Nat.eqb (fst kv) o1)) cm)))
  | Err _ => True
  end.
Proof.
  intros Hnd. unfold cluster_pass, bind, lift, ret, raise.
  destruct (pass_candidates cm cm []) as [cs|] eqn:Hcs; [|exact I].
  destruct (pop_max cs) as [best|] eqn:Hpop.
  - destruct (pop_max_Some cs best Hpop) as [Hbest Hmax].
    destruct (pass_candidates_sound cm cm [] cs Hcs best Hbest)
      as [[]|(o1 & c1 & o2 & c2 & w & H1 & H2 & Hlt & Hw & Hpos & ->)].
    destruct (mk_pair_lt o1 o2 w Hlt) as [-> ->].
    rewrite (In_dict_get o1 cm c1 Hnd H1), (In_dict_get o2 cm c2 Hnd H2).
    rewrite (dict_del_In o1 cm c1 H1).
    assert (H2' : In (o2, c2) (filter (fun kv => negb (Nat.eqb (fst kv) o1)) cm)).
    { apply filter_In. split; [exact H2|]. simpl.
      apply negb_true_iff, Nat.eqb_neq. lia. }
    rewrite (dict_del_In o2 _ c2 H2'). simpl.
    right. split; [reflexivity|]. split; [reflexivity|].
    exists o1, c1, o2, c2, w. repeat split; auto.
    intros o1' c1' o2' c2' w' Ha Hb Hlt' Hw'.
    destruct (Rle_dec w' 0) as [Hle|Hgt]; [lra|].
    apply (Hmax (mk_pair o1' o2' w')).
    eapply pass_candidates_complete; eauto. lra.
  - apply pop_max_None in Hpop. subst cs.
    left. repeat split.
    intros o1 c1 o2 c2 w H1 H2 Hlt Hw.
    destruct (Rle_dec w 0) as [Hle|Hgt]; [exact Hle|].
    exfalso. apply (pass_candidates_complete cm cm [] [] Hcs o1 c1 o2 c2 w H1 H2 Hlt Hw). lra.
Qed.

(** C5: one [_cluster_pass] on a cluster map (a dict: its keys are unique).
    When no pair of distinct entries [oid_1 < oid_2] has positive weightsum
    [weightsum(cluster_1, cluster_2)], it returns the map unchanged with
    [True]. Otherwise it picks such a pair of maximal weightsum, deletes
    both entries, inserts under a fresh oid from the counter the cluster of
    the union of their references, and returns [False]. *)
Theorem cluster_pass_spec (cm : cmap) (n : nat) :
  NoDup (map fst cm) ->
  match cluster_pass cm n with
  | Ok ((cm', optimal), n') =>
      (optimal = true /\ cm' = cm /\ n' = n /\
       forall o1 c1 o2 c2 w, In (o1, c1) cm -> In (o2, c2) cm -> (o1 < o2)%nat ->
         weightsum c1 c2 = Some w -> w <= 0)
      \/
      (optimal = false /\ n' = S n /\
       exists o1 c1 o2 c2 w,
         In (o1, c1) cm /\ In (o2, c2) cm /\ (o1 < o2)%nat /\
         weightsum c1 c2 = Some w /\ 0 < w /\
         (forall o1' c1' o2' c2' w', In (o1', c1') cm -> In (o2', c2') cm ->
            (o1' < o2')%nat -> weightsum c1' c2' = Some w' -> w' <= w) /\
         cm' = dict_set n {| c_oid := n; references := ref_union (references c1) (references c2) |}
                 (filter (fun kv => negb (Nat.eqb (fst kv) o2))
                    (filter (fun kv => negb (Nat.eqb (fst kv) o1)) cm)))
  | Err _ => True
  end.
Proof. exact (cluster_pass_cases cm n). Qed.

(** ** Termination of [_cluster_solve] *)

Lemma filter_keep_all {A} (f : A -> bool) (l : list A) :
  (forall x, In x l -> f x = true) -> filter f l = l.
Proof.
  induction l as [|x l IH]; simpl; intros H; [auto|].
  rewrite (H x (or_introl eq_refl)). f_equal. auto.
Qed.

Lemma length_filter_key {A} k (d : list (nat * A)) :
  NoDup (map fst d) -> In k (map fst d) ->
  S (List.length (filter (fun kv => negb (Nat.eqb (fst kv) k)) d)) = List.length d.
Proof.
  induction d as [|[k' v'] d IH]; simpl; [tauto|].
  intros Hnd Hin. inversion Hnd as [|? ? Hnot Hnd']; subst.
  destruct (Nat.eqb k' k) eqn:E; simpl.
  - apply Nat.eqb_eq in E. subst. rewrite filter_keep_all; [reflexivity|].
    intros [k'' v''] Hx. apply negb_true_iff, Nat.eqb_neq. simpl. intros Heq. subst k''.
    apply Hnot. now apply (in_map fst) in Hx.
  - apply Nat.eqb_neq in E. destruct Hin as [->|Hin]; [tauto|]. rewrite IH; auto.
Qed.

Lemma In_filter_key {A} k k' (v : A) d :
  In (k', v) (filter (fun kv => negb (Nat.eqb (fst kv) k)) d) <-> In (k', v) d /\ k' <> k.
Proof.
  rewrite filter_In. simpl. rewrite negb_true_iff, Nat.eqb_neq. tauto.
Qed.

Lemma keys_In_filter {A} k k' (d : list (nat * A)) :
  In k' (map fst (filter (fun kv => negb (Nat.eqb (fst kv) k)) d)) <->
  In k' (map fst d) /\ k' <> k.
Proof.
  rewrite !in_map_iff. split.
  - intros [[a b] [<- Hin]]. apply In_filter_key in Hin as [Hin Hne].
    split; [exists (a, b); auto | exact Hne].
  - intros [[[a b] [<- Hin]] Hne]. exists (a, b). split; [reflexivity|].
    now apply In_filter_key.
Qed.

Lemma wf_fresh cm n : wf_cmap cm n -> ~ In n (map fst cm).
Proof. intros [_ H] Hin. specialize (H n Hin). lia. Qed.

Lemma wf_app_fresh cm n c :
  wf_cmap cm n -> wf_cmap (cm ++ [(n, c)]) (S n).
Proof.
  intros [Hnd Hlt]. split.
  - rewrite map_app. simpl. apply NoDup_app; auto.
    + repeat constructor. auto.
    + intros x Hx [Heq|[]]. subst x. specialize (Hlt n Hx). lia.
  - intros k. rewrite map_app, in_app_iff. simpl.
    intros [Hk|[Heq|[]]]; [specialize (Hlt k Hk); lia | lia].
Qed.

Lemma wf_filter_key cm n k :
  wf_cmap cm n -> wf_cmap (filter (fun kv => negb (Nat.eqb (fst kv) k)) cm) n.
Proof.
  intros [Hnd Hlt]. split; [now apply NoDup_filter_keys|].
  intros k' Hk'. apply keys_In_filter in Hk' as [Hk' _]. auto.
Qed.

Lemma cluster_pass_not_out_of_fuel cm n : cluster_pass cm n <> Err OutOfFuel.
Proof.
  unfold cluster_pass, bind, lift, ret, raise, merge, next_id.
  destruct (pass_candidates cm cm []); [|discriminate].
  destruct (pop_max _) as [best|]; [|discriminate].
  destruct (dict_get (cluster_oid_1 best) cm); [|discriminate].
  destruct (dict_get (cluster_oid_2 best) cm); [|discriminate].
  destruct (dict_del _ cm); [|discriminate].
  destruct (dict_del _ _); discriminate.
Qed.

(** After a merging pass the map has one entry less and stays well formed. *)
Lemma cluster_pass_false_length cm n cm' n' :
  wf_cmap cm n -> cluster_pass cm n = Ok ((cm', false), n') ->
  S (List.length cm') = List.length cm /\ (2 <= List.length cm)%nat /\ wf_cmap cm' n'.
Proof.
  intros Hwf Hp. pose proof (cluster_pass_cases cm n (proj1 Hwf)) as Hc.
  rewrite Hp in Hc.
  destruct Hc as [(? & _)|(_ & -> & o1 & c1 & o2 & c2 & w & H1 & H2 & Hlt & _ & _ & _ & ->)];
    [discriminate|].
  destruct Hwf as [Hnd Hkeys].
  set (cm1 := filter (fun kv => negb (Nat.eqb (fst kv) o1)) cm).
  set (cm2 := filter (fun kv => negb (Nat.eqb (fst kv) o2)) cm1).
  assert (Hwf2 : wf_cmap cm2 n) by (apply wf_filter_key, wf_filter_key; split; auto).
  assert (Hin2 : In o2 (map fst cm1)).
  { apply keys_In_filter. split; [now apply (in_map fst) in H2 | lia]. }
  assert (L1 : S (List.length cm1) = List.length cm)
    by (apply length_filter_key; auto; now apply (in_map fst) in H1).
  assert (L2 : S (List.length cm2) = List.length cm1)
    by (apply length_filter_key; auto; now apply NoDup_filter_keys).
  rewrite dict_set_fresh by (now apply wf_fresh).
  rewrite length_app. simpl. split; [lia|]. split; [lia|].
  now apply wf_app_fresh.
Qed.

Lemma cluster_solve_loop_fuel fuel cm changed n :
  wf_cmap cm n -> (Nat.max 1 (List.length cm) <= fuel)%nat ->
  cluster_solve_loop fuel cm changed n <> Err OutOfFuel.
Proof.
  revert cm changed n. induction fuel as [|fuel IH]; intros cm changed n Hwf Hf.
  - lia.
  - simpl. unfold bind at 1.
    destruct (cluster_pass cm n) as [[[cm' [|]] n']|e] eqn:Hp.
    + discriminate.
    + destruct (cluster_pass_false_length cm n cm' n' Hwf Hp) as (HL & H2 & Hwf').
      apply IH; [exact Hwf'|]. lia.
    + intros [= ->]. exact (cluster_pass_not_out_of_fuel cm n Hp).
Qed.

(** C6: on a well-formed cluster map (unique keys, all drawn from the
    counter before its current value [n]) a pass that returns [False] has
    removed exactly one cluster, and [_cluster_solve] ends with an optimal
    pass within [max(1, len(cluster_map))] passes, i.e. after at most
    [len(cluster_map) - 1] merges: the loop never runs out of fuel. *)
Theorem cluster_solve_terminates (cm : cmap) (n : nat) :
  NoDup (map fst cm) -> (forall k, In k (map fst cm) -> (k < n)%nat) ->
  (forall cm' n', cluster_pass cm n = Ok ((cm', false), n') ->
     S (List.length cm') = List.length cm) /\
  (forall changed,
     cluster_solve_loop (Nat.max 1 (List.length cm)) cm changed n <> Err OutOfFuel) /\
  cluster_solve cm n <> Err OutOfFuel.
Proof.
  intros Hnd Hlt. assert (Hwf : wf_cmap cm n) by (split; auto).
  split; [|split].
  - intros cm' n' Hp. now destruct (cluster_pass_false_length cm n cm' n' Hwf Hp).
  - intros changed. apply cluster_solve_loop_fuel; auto.
  - unfold cluster_solve. apply cluster_solve_loop_fuel; auto. lia.
Qed.
(** ** The completion loop of [_cluster_stream] *)

Lemma stream_pairs_inner_sound ao ac cm acc ps :
  stream_pairs_inner ao ac cm acc = Some ps ->
  forall p, In p ps -> In p acc \/
    exists o c w, In (o, c) cm /\ ao <> o /\ weightsum ac c = Some w /\
      0 < w /\ p = mk_pair ao o w.
Proof.
  revert acc. induction cm as [|[o c] cm IH]; intros acc H p Hp; simpl in H.
  - injection H as <-. auto.
  - destruct (Nat.eqb ao o) eqn:Heq.
    + destruct (IH acc H p Hp) as [?|(o' & c' & w & ? & ?)]; [auto|].
      right. exists o', c', w. simpl. tauto.
    + apply Nat.eqb_neq in Heq.
      destruct (weightsum ac c) as [w|] eqn:Hw; [|discriminate].
      destruct (Rleb w 0) eqn:Hr.
      * destruct (IH acc H p Hp) as [?|(o' & c' & w' & ? & ?)]; [auto|].
        right. exists o', c', w'. simpl. tauto.
      * destruct (IH _ H p Hp) as [Hin|(o' & c' & w' & ? & ?)].
        -- apply in_app_or in Hin as [Hin|[<-|[]]]; [auto|].
           right. exists o, c, w. simpl. repeat split; auto.
           assert (~ w <= 0) by (intro H'; apply Rleb_spec in H'; congruence). lra.
        -- right. exists o', c', w'. simpl. tauto.
Qed.

Lemma stream_pairs_inner_complete ao ac cm acc ps :
  stream_pairs_inner ao ac cm acc = Some ps ->
  (forall p, In p acc -> In p ps) /\
  forall o c w, In (o, c) cm -> ao <> o -> weightsum ac c = Some w ->
    0 < w -> In (mk_pair ao o w) ps.
Proof.
  revert acc. induction cm as [|[o0 c0] cm IH]; intros acc H; simpl in H.
  - injection H as <-. split; [auto | intros ? ? ? []].
  - destruct (Nat.eqb ao o0) eqn:Heq.
    + apply Nat.eqb_eq in Heq.
      destruct (IH acc H) as [Hacc Hall]. split; [exact Hacc|].
      intros o c w [[= <- <-]|Hin] Hne; [congruence | eauto].
    + destruct (weightsum ac c0) as [w0|] eqn:Hw; [|discriminate].
      destruct (Rleb w0 0) eqn:Hr.
      * destruct (IH acc H) as [Hacc Hall]. split; [exact Hacc|].
        intros o c w [[= <- <-]|Hin] Hne Hw' Hpos; [|eauto].
        apply Rleb_spec in Hr. rewrite Hw in Hw'. injection Hw' as <-. lra.
      * destruct (IH _ H) as [Hacc Hall]. split.
        -- intros p Hp. apply Hacc. apply in_or_app. auto.
        -- intros o c w [[= <- <-]|Hin] Hne Hw' Hpos; [|eauto].
           apply Hacc. apply in_or_app. right. rewrite Hw in Hw'.
           injection Hw' as <-. now left.
Qed.

Lemma stream_pairs_sound active cm acc ps :
  stream_pairs active cm acc = Some ps ->
  forall p, In p ps -> In p acc \/
    exists ao ac o c w, In (ao, ac) active /\ In (o, c) cm /\ ao <> o /\
      weightsum ac c = Some w /\ 0 < w /\ p = mk_pair ao o w.
Proof.
  revert acc. induction active as [|[ao ac] active IH]; intros acc H p Hp; simpl in H.
  - injection H as <-. auto.
  - destruct (stream_pairs_inner ao ac cm acc) as [ps1|] eqn:H1; [|discriminate].
    destruct (IH ps1 H p Hp) as [Hin|(a & b & c & d & e & ?)].
    + destruct (stream_pairs_inner_sound ao ac cm acc ps1 H1 p Hin)
        as [?|(o & c & w & ?)]; [auto|].
      right. exists ao, ac, o, c, w. simpl. tauto.
    + right. exists a, b, c, d, e. simpl. tauto.
Qed.

Lemma stream_pairs_complete active cm acc ps :
  stream_pairs active cm acc = Some ps ->
  forall ao ac o c w, In (ao, ac) active -> In (o, c) cm -> ao <> o ->
    weightsum ac c = Some w -> 0 < w -> In (mk_pair ao o w) ps.
Proof.
  assert (Hmono : forall active acc ps, stream_pairs active cm acc = Some ps ->
            forall p, In p acc -> In p ps).
  { induction active0 as [|[ao ac] active0 IH]; intros acc0 ps0 H p Hp; simpl in H.
    - now injection H as <-.
    - destruct (stream_pairs_inner ao ac cm acc0) as [ps1|] eqn:H1; [|discriminate].
      eapply IH; [exact H|]. eapply stream_pairs_inner_complete; eauto. }
  revert acc. induction active as [|[ao' ac'] active IH]; intros acc H ao ac o c w Hin;
    simpl in H; [destruct Hin|].
  destruct (stream_pairs_inner ao' ac' cm acc) as [ps1|] eqn:H1; [|discriminate].
  destruct Hin as [[= <- <-]|Hin]; intros; [|eapply IH; eauto].
  eapply Hmono; [exact H|]. eapply stream_pairs_inner_complete; eauto.
Qed.

(** The local [_cluster_solve] on two clusters [oid_1 < oid_2]: it merges
    them exactly when their weightsum is positive. *)
Lemma cluster_solve_two o1 c1 o2 c2 n :
  (o1 < o2)%nat ->
  cluster_solve [(o1, c1); (o2, c2)] n =
  match weightsum c1 c2 with
  | None => Err AttributeError
  | Some w =>
      if Rleb w 0 then Ok (([(o1, c1); (o2, c2)], false), n)
      else Ok (([(n, {| c_oid := n;
                         references := ref_union (references c1) (references c2) |})],
                true), S n)
  end.
Proof.
  intros Hlt.
  assert (E1 : Nat.leb o1 o1 = true) by apply Nat.leb_refl.
  assert (E2 : Nat.leb o2 o1 = false) by (apply Nat.leb_gt; lia).
  assert (E3 : Nat.leb o1 o2 = true) by (apply Nat.leb_le; lia).
  assert (E4 : Nat.leb o2 o2 = true) by apply Nat.leb_refl.
  assert (E5 : Nat.leb n n = true) by apply Nat.leb_refl.
  assert (E6 : Nat.eqb o1 o1 = true) by apply Nat.eqb_refl.
  assert (E7 : Nat.eqb o2 o2 = true) by apply Nat.eqb_refl.
  assert (E8 : Nat.eqb o2 o1 = false) by (apply Nat.eqb_neq; lia).
  assert (E9 : Nat.eqb o1 o2 = false) by (apply Nat.eqb_neq; lia).
  assert (E10 : Nat.min o1 o2 = o1) by (apply Nat.min_l; lia).
  assert (E11 : Nat.max o1 o2 = o2) by (apply Nat.max_r; lia).
  unfold cluster_solve. simpl List.length.
  unfold cluster_solve_loop, cluster_pass, bind, lift, ret, raise, merge, next_id, dict_del.
  cbn -[weightsum Rleb Nat.leb Nat.eqb Nat.min Nat.max].
  rewrite ?E1, ?E2, ?E3, ?E4.
  destruct (weightsum c1 c2) as [w|]; [|reflexivity].
  destruct (Rleb w 0); [reflexivity|].
  cbn -[weightsum Rleb Nat.leb Nat.eqb Nat.min Nat.max].
  rewrite ?E10, ?E11, ?E6, ?E7, ?E8, ?E9.
  cbn -[weightsum Rleb Nat.leb Nat.eqb Nat.min Nat.max].
  rewrite ?E10, ?E11, ?E6, ?E7, ?E8, ?E9, ?E5.
  cbn -[weightsum Rleb Nat.leb Nat.eqb Nat.min Nat.max].
  rewrite ?E10, ?E11, ?E6, ?E7, ?E8, ?E9, ?E5.
  cbn -[weightsum Rleb Nat.leb Nat.eqb Nat.min Nat.max].
  reflexivity.
Qed.

(** One iteration of the completion loop on a well-formed map: either no
    active cluster has a positive weightsum with another entry and the map
    is returned, or a pair is popped and the local [_cluster_solve] on its
    two clusters either leaves the map as it is (no cluster is active any
    more) or replaces them by their merge under the next oid, which becomes
    the only active cluster. *)
Lemma stream_loop_step fuel active cm n res :
  wf_cmap cm n ->
  stream_loop (S fuel) active cm n = Ok res ->
  (res = (cm, n) /\
   forall ao ac o c w, In (ao, ac) active -> In (o, c) cm -> ao <> o ->
     weightsum ac c = Some w -> w <= 0)
  \/ exists ao ac o c w0 c1 c2 w,
       In (ao, ac) active /\ In (o, c) cm /\ ao <> o /\
       weightsum ac c = Some w0 /\ 0 < w0 /\
       dict_get (Nat.min ao o) cm = Some c1 /\ dict_get (Nat.max ao o) cm = Some c2 /\
       weightsum c1 c2 = Some w /\
       ((w <= 0 /\ stream_loop fuel [] cm n = Ok res) \/
        (0 < w /\
         stream_loop fuel
           [(n, {| c_oid := n; references := ref_union (references c1) (references c2) |})]
           (filter (fun kv => negb (Nat.eqb (fst kv) (Nat.max ao o)))
              (filter (fun kv => negb (Nat.eqb (fst kv) (Nat.min ao o)))
                 (cm ++ [(n, {| c_oid := n;
                                references := ref_union (references c1) (references c2) |})])))
           (S n) = Ok res)).
Proof.
  intros Hwf H. cbn [stream_loop] in H. unfold bind, lift, ret, raise in H.
  destruct (stream_pairs active cm []) as [ps|] eqn:Hps; [|discriminate].
  destruct (pop_max ps) as [best|] eqn:Hpop.
  - right. destruct (pop_max_Some ps best Hpop) as [Hbest _].
    destruct (stream_pairs_sound active cm [] ps Hps best Hbest)
      as [[]|(ao & ac & o & c & w0 & Ha & Hc & Hne & Hw0 & Hpos & ->)].
    cbn [cluster_oid_1 cluster_oid_2 mk_pair] in H.
    destruct (dict_get (Nat.min ao o) cm) as [c1|] eqn:H1; [|discriminate].
    destruct (dict_get (Nat.max ao o) cm) as [c2|] eqn:H2; [|discriminate].
    assert (Hlt : (Nat.min ao o < Nat.max ao o)%nat) by lia.
    rewrite (cluster_solve_two _ c1 _ c2 n Hlt) in H.
    exists ao, ac, o, c, w0, c1, c2.
    destruct (weightsum c1 c2) as [w|]; [|discriminate].
    exists w. do 8 (split; [assumption || reflexivity|]).
    destruct (Rleb w 0) eqn:Hr.
    + left. split; [now apply Rleb_spec|].
      unfold absorb_solution in H. cbn [fold_left] in H. rewrite H1, H2 in H.
      unfold drop_if_absent, ret in H. cbn [dict_get] in H.
      rewrite Nat.eqb_refl in H.
      assert (E : Nat.eqb (Nat.max ao o) (Nat.min ao o) = false) by (apply Nat.eqb_neq; lia).
      rewrite E, Nat.eqb_refl in H. exact H.
    + right. split.
      { assert (~ w <= 0) by (intro H'; apply Rleb_spec in H'; congruence). lra. }
      set (Mc := {| c_oid := n; references := ref_union (references c1) (references c2) |})
        in *.
      assert (Hk1 : In (Nat.min ao o, c1) cm) by now apply dict_get_In.
      assert (Hk2 : In (Nat.max ao o, c2) cm) by now apply dict_get_In.
      assert (L1 : (Nat.min ao o < n)%nat)
        by (apply (proj2 Hwf); now apply (in_map fst) in Hk1).
      assert (L2 : (Nat.max ao o < n)%nat)
        by (apply (proj2 Hwf); now apply (in_map fst) in Hk2).
      unfold absorb_solution in H. cbn [fold_left] in H.
      rewrite (dict_get_None n cm (wf_fresh cm n Hwf)) in H.
      rewrite (dict_set_fresh n Mc cm (wf_fresh cm n Hwf)) in H.
      cbn [dict_set] in H.
      unfold drop_if_absent, lift, ret, raise in H. cbn [dict_get] in H.
      assert (E1 : Nat.eqb (Nat.min ao o) n = false) by (apply Nat.eqb_neq; lia).
      assert (E2 : Nat.eqb (Nat.max ao o) n = false) by (apply Nat.eqb_neq; lia).
      rewrite E1, E2 in H.
      rewrite (dict_del_In (Nat.min ao o) (cm ++ [(n, Mc)]) c1) in H
        by (apply in_or_app; now left).
      rewrite (dict_del_In (Nat.max ao o) _ c2) in H.
      * exact H.
      * apply In_filter_key. split; [apply in_or_app; now left | lia].
  - left. apply pop_max_None in Hpop. subst ps.
    injection H as <-. split; [reflexivity|].
    intros ao ac o c w Ha Hc Hne Hw.
    destruct (Rle_dec w 0) as [Hle|Hgt]; [exact Hle|].
    exfalso. apply (stream_pairs_complete active cm [] [] Hps ao ac o c w Ha Hc Hne Hw). lra.
Qed.

(** ** Symmetry of [weightsum] *)

Lemma sum_opt_perm (l l' : list (option R)) : Permutation l l' -> sum_opt l = sum_opt l'.
Proof.
  unfold sum_opt. induction 1 as [|x l l' _ IH|x y l|l l' l'' _ IH1 _ IH2]; simpl.
  - reflexivity.
  - now rewrite IH.
  - destruct x, y, (fold_right opt_add (Some 0) l); simpl; auto. f_equal. lra.
  - congruence.
Qed.

Lemma perm_map_flat_map {A B} (g : A -> B) (h : A -> list B) (l : list A) :
  Permutation (map g l ++ flat_map h l) (flat_map (fun a => g a :: h a) l).
Proof.
  induction l as [|a l IH]; simpl; [reflexivity|].
  constructor. rewrite Permutation_app_swap_app. apply Permutation_app_head. exact IH.
Qed.

Lemma flat_map_transpose {A B C} (f : A -> B -> C) (l1 : list A) (l2 : list B) :
  Permutation (flat_map (fun a => map (f a) l2) l1)
              (flat_map (fun b => map (fun a => f a b) l1) l2).
Proof.
  induction l1 as [|a l1 IH]; simpl.
  - induction l2; simpl; auto.
  - rewrite IH. apply perm_map_flat_map.
Qed.

Lemma product_scores_comm (refs_1 refs_2 : list Reference) :
  (forall r1 r2, In r1 refs_1 -> In r2 refs_2 -> compare r1 r2 = compare r2 r1) ->
  Permutation (product_scores refs_1 refs_2) (product_scores refs_2 refs_1).
Proof.
  intros Hs. unfold product_scores. rewrite flat_map_transpose.
  apply Permutation_refl'. induction refs_2 as [|r2 refs_2 IH]; simpl; [reflexivity|].
  f_equal.
  - apply map_ext_in. intros r1 Hr1. apply Hs; simpl; auto.
  - apply IH. intros r1 r2' H1 H2. apply Hs; simpl; auto.
Qed.

Lemma weightsum_comm (c1 c2 : Cluster) :
  (forall r1 r2, In r1 (references c1) -> In r2 (references c2) ->
     compare r1 r2 = compare r2 r1) ->
  weightsum c1 c2 = weightsum c2 c1.
Proof.
  intros Hs. unfold weightsum. rewrite has_common_block_comm.
  destruct (has_common_block c2 c1); simpl; [|reflexivity].
  rewrite !compare_refs_spec.
  rewrite (sum_opt_perm _ _ (product_scores_comm _ _ Hs)). reflexivity.
Qed.

Lemma ref_union_In r l1 l2 : In r (ref_union l1 l2) -> In r l1 \/ In r l2.
Proof.
  unfold ref_union. intros H. apply in_app_or in H as [H|H]; [auto|].
  apply filter_In in H. tauto.
Qed.

Lemma dict_In_unique {A} k (v v' : A) (d : list (nat * A)) :
  NoDup (map fst d) -> In (k, v) d -> In (k, v') d -> v = v'.
Proof.
  intros Hnd H1 H2. apply (In_dict_get k d v Hnd) in H1.
  apply (In_dict_get k d v' Hnd) in H2. congruence.
Qed.

(** [_cluster_stream] on a Reference: the new singleton cluster is
    appended under the next oid and becomes the only active cluster. *)
Lemma cluster_stream_reference r cm n :
  ~ In n (map fst cm) ->
  cluster_stream (ObsReference r) cm n =
  stream_loop (S (S (List.length (cm ++ [(n, {| c_oid := n; references := [r] |})]))))
    [(n, {| c_oid := n; references := [r] |})]
    (cm ++ [(n, {| c_oid := n; references := [r] |})]) (S n).
Proof.
  intros Hn. unfold cluster_stream, new_cluster_of, bind, next_id, ret.
  cbn [c_oid]. rewrite dict_set_fresh by exact Hn. reflexivity.
Qed.

Lemma ops_refs_app ops1 ops2 : ops_refs (ops1 ++ ops2) = ops_refs ops1 ++ ops_refs ops2.
Proof.
  induction ops1 as [|[[r|rs]|] ops1 IH]; simpl; rewrite ?IH, ?app_assoc; reflexivity.
Qed.

Lemma wf_cmap_nil n : wf_cmap [] n.
Proof. split; [constructor | intros _ []]. Qed.

(** ** Local optimality of [resolve] when [compare] is symmetric *)
Section LocalOptimum.

(** The references ingested, on which [compare] is assumed symmetric. *)
Variable ingested : list Reference.
Hypothesis Hsym : forall r1 r2, In r1 ingested -> In r2 ingested -> compare r1 r2 = compare r2 r1.

Lemma weightsum_comm_in (cm : cmap) k1 c1 k2 c2 :
  (forall k c r, In (k, c) cm -> In r (references c) -> In r ingested) ->
  In (k1, c1) cm -> In (k2, c2) cm -> weightsum c1 c2 = weightsum c2 c1.
Proof.
  intros Hr H1 H2. apply weightsum_comm. intros r1 r2 Hr1 Hr2.
  apply Hsym; eauto.
Qed.

(** The invariant of the completion loop: every pair of distinct entries
    that involves no active cluster has a non-positive weightsum. *)
Lemma stream_loop_optimal fuel : forall active cm n res,
  wf_cmap cm n ->
  (forall k c r, In (k, c) cm -> In r (references c) -> In r ingested) ->
  (active = [] \/ exists a ca, active = [(a, ca)] /\ In (a, ca) cm) ->
  (forall k1 c1 k2 c2 w, In (k1, c1) cm -> In (k2, c2) cm -> k1 <> k2 ->
     (forall a ca, In (a, ca) active -> a <> k1 /\ a <> k2) ->
     weightsum c1 c2 = Some w -> w <= 0) ->
  stream_loop fuel active cm n = Ok res ->
  wf_cmap (fst res) (snd res) /\
  (forall k c r, In (k, c) (fst res) -> In r (references c) -> In r ingested) /\
  locally_optimal (fst res).
Proof.
  induction fuel as [|fuel IH]; intros active cm n res Hwf Hrefs Hact Hpart H;
    [discriminate|].
  destruct (stream_loop_step fuel active cm n res Hwf H)
    as [[-> Hdone]|(ao & ac & o & c & w0 & c1 & c2 & w & Ha & Hc & Hne & Hw0 & Hpos &
                    H1 & H2 & Hw & [[Hle Hrest]|[Hgt Hrest]])].
  - simpl. split; [exact Hwf|]. split; [exact Hrefs|].
    intros k1 d1 k2 d2 w Hk1 Hk2 Hne Hw.
    destruct Hact as [->|(a & ca & -> & Hain)].
    + apply (Hpart k1 d1 k2 d2 w); auto.
    + destruct (Nat.eq_dec k1 a) as [->|Hk1a].
      * rewrite (dict_In_unique a d1 ca cm (proj1 Hwf) Hk1 Hain) in Hw.
        apply (Hdone a ca k2 d2 w); auto. now left.
      * destruct (Nat.eq_dec k2 a) as [->|Hk2a].
        -- rewrite (dict_In_unique a d2 ca cm (proj1 Hwf) Hk2 Hain) in Hw.
           rewrite (weightsum_comm_in cm k1 d1 a ca Hrefs Hk1 Hain) in Hw.
           apply (Hdone a ca k1 d1 w); auto. now left.
        -- apply (Hpart k1 d1 k2 d2 w); auto. intros a' ca' [[= <- <-]|[]]. auto.
  - exfalso.
    destruct Hact as [->|(a & ca & -> & Hain)]; [destruct Ha|].
    destruct Ha as [[= <- <-]|[]].
    assert (Hc1 : In (Nat.min a o, c1) cm) by now apply dict_get_In.
    assert (Hc2 : In (Nat.max a o, c2) cm) by now apply dict_get_In.
    destruct (Nat.lt_ge_cases a o) as [Hlt|Hge].
    + rewrite Nat.min_l in Hc1 by lia. rewrite Nat.max_r in Hc2 by lia.
      rewrite (dict_In_unique a c1 ca cm (proj1 Hwf) Hc1 Hain) in Hw.
      rewrite (dict_In_unique o c2 c cm (proj1 Hwf) Hc2 Hc) in Hw.
      rewrite Hw in Hw0. injection Hw0 as ->. lra.
    + rewrite Nat.min_r in Hc1 by lia. rewrite Nat.max_l in Hc2 by lia.
      rewrite (dict_In_unique o c1 c cm (proj1 Hwf) Hc1 Hc) in Hw.
      rewrite (dict_In_unique a c2 ca cm (proj1 Hwf) Hc2 Hain) in Hw.
      rewrite (weightsum_comm_in cm o c a ca Hrefs Hc Hain) in Hw.
      rewrite Hw in Hw0. injection Hw0 as ->. lra.
  - set (Mc := {| c_oid := n; references := ref_union (references c1) (references c2) |})
      in *.
    assert (Hc1 : In (Nat.min ao o, c1) cm) by now apply dict_get_In.
    assert (Hc2 : In (Nat.max ao o, c2) cm) by now apply dict_get_In.
    assert (L1 : (Nat.min ao o < n)%nat)
      by (apply (proj2 Hwf); now apply (in_map fst) in Hc1).
    assert (L2 : (Nat.max ao o < n)%nat)
      by (apply (proj2 Hwf); now apply (in_map fst) in Hc2).
    assert (Hin3 : forall k d,
      In (k, d) (filter (fun kv => negb (Nat.eqb (fst kv) (Nat.max ao o)))
                   (filter (fun kv => negb (Nat.eqb (fst kv) (Nat.min ao o)))
                      (cm ++ [(n, Mc)]))) <->
      In (k, d) (cm ++ [(n, Mc)]) /\ k <> Nat.min ao o /\ k <> Nat.max ao o).
    { intros k d. rewrite !In_filter_key. tauto. }
    apply (IH _ _ _ _ (wf_filter_key _ _ _ (wf_filter_key _ _ _ (wf_app_fresh cm n Mc Hwf))))
      in Hrest; [exact Hrest| | |].
    + intros k d r Hin Hr. apply Hin3 in Hin as [Hin _].
      apply in_app_or in Hin as [Hin|[[= <- <-]|[]]]; [eauto|].
      apply ref_union_In in Hr as [Hr|Hr]; eauto.
    + right. exists n, Mc. split; [reflexivity|]. apply Hin3.
      split; [apply in_or_app; right; now left | lia].
    + intros k1 d1 k2 d2 w' Hk1 Hk2 Hne' Hna Hw'.
      destruct (Hna n Mc (or_introl eq_refl)) as [Hn1 Hn2].
      apply Hin3 in Hk1 as (Hk1 & Hk1a & Hk1b). apply Hin3 in Hk2 as (Hk2 & Hk2a & Hk2b).
      apply in_app_or in Hk1 as [Hk1|[[= <- <-]|[]]]; [|congruence].
      apply in_app_or in Hk2 as [Hk2|[[= <- <-]|[]]]; [|congruence].
      apply (Hpart k1 d1 k2 d2 w'); auto.
      intros a ca Ha'. destruct Hact as [->|(a' & ca' & -> & _)]; [destruct Ha'|].
      destruct Ha as [[= <- <-]|[]]. destruct Ha' as [[= <- <-]|[]].
      split; intros ->; lia.
Qed.

Lemma resolve_loop_optimal refs : forall cm n res,
  wf_cmap cm n ->
  (forall k c r, In (k, c) cm -> In r (references c) -> In r ingested) ->
  (forall r, In r refs -> In r ingested) ->
  locally_optimal cm ->
  SerialResolver.resolve_loop refs cm n = Ok res ->
  wf_cmap (fst res) (snd res) /\
  (forall k c r, In (k, c) (fst res) -> In r (references c) -> In r ingested) /\
  locally_optimal (fst res).
Proof.
  induction refs as [|r refs IH]; intros cm n res Hwf Hrefs Hin Hopt H.
  - simpl in H. unfold ret in H. injection H as <-. simpl. auto.
  - simpl in H. unfold bind in H.
    rewrite (cluster_stream_reference r cm n (wf_fresh cm n Hwf)) in H.
    set (N := {| c_oid := n; references := [r] |}) in *.
    destruct (stream_loop _ _ _ _) as [[cm' n']|e] eqn:Hs; [|discriminate].
    apply stream_loop_optimal in Hs as (Hwf' & Hrefs' & Hopt').
    + simpl in Hwf', Hrefs', Hopt'. apply (IH cm' n' res Hwf' Hrefs'); auto.
      intros r' Hr'. apply Hin. now right.
    + now apply wf_app_fresh.
    + intros k c r' Hkc Hr'. apply in_app_or in Hkc as [Hkc|[[= <- <-]|[]]]; [eauto|].
      destruct Hr' as [<-|[]]. apply Hin. now left.
    + right. exists n, N. split; [reflexivity|]. apply in_or_app. right. now left.
    + intros k1 c1 k2 c2 w Hk1 Hk2 Hne Hna Hw.
      destruct (Hna n N (or_introl eq_refl)) as [Hn1 Hn2].
      apply in_app_or in Hk1 as [Hk1|[[= <- <-]|[]]]; [|congruence].
      apply in_app_or in Hk2 as [Hk2|[[= <- <-]|[]]]; [|congruence].
      apply (Hopt k1 c1 k2 c2 w); auto.
Qed.

Lemma run_optimal ops : forall sr n res,
  wf_cmap (SerialResolver.cluster_map sr) n ->
  (forall k c r, In (k, c) (SerialResolver.cluster_map sr) -> In r (references c) -> In r ingested) ->
  (forall r, In r (SerialResolver.references sr) -> In r ingested) ->
  (forall r, In r (ops_refs ops) -> In r ingested) ->
  locally_optimal (SerialResolver.cluster_map sr) ->
  SerialResolver.run ops sr n = Ok res ->
  locally_optimal (SerialResolver.cluster_map (fst res)).
Proof.
  induction ops as [|[[r|rs]|] ops IH]; intros sr n res Hwf Hrefs Hin Hops Hopt H.
  - simpl in H. unfold ret in H. injection H as <-. exact Hopt.
  - simpl in H.
    assert (Hin' : forall r', In r' (SerialResolver.references
                                      (SerialResolver.add sr (SerialResolver.AddOne r))) ->
                              In r' ingested).
    { simpl. intros r' Hr'. apply in_app_or in Hr' as [Hr'|[<-|[]]]; auto.
      apply Hops. now left. }
    assert (Hops' : forall r', In r' (ops_refs ops) -> In r' ingested)
      by (intros r' Hr'; apply Hops; now right).
    exact (IH (SerialResolver.add sr (SerialResolver.AddOne r)) n res Hwf Hrefs Hin' Hops' Hopt H).
  - simpl in H.
    assert (Hin' : forall r', In r' (SerialResolver.references
                                      (SerialResolver.add sr (SerialResolver.AddList rs))) ->
                              In r' ingested).
    { simpl. intros r' Hr'. apply in_app_or in Hr' as [Hr'|Hr']; auto.
      apply Hops. simpl. apply in_or_app. now left. }
    assert (Hops' : forall r', In r' (ops_refs ops) -> In r' ingested)
      by (intros r' Hr'; apply Hops; simpl; apply in_or_app; now right).
    exact (IH (SerialResolver.add sr (SerialResolver.AddList rs)) n res Hwf Hrefs Hin' Hops' Hopt H).
  - simpl in H. unfold bind, SerialResolver.resolve, bind, ret in H.
    destruct (SerialResolver.resolve_loop _ _ n) as [[cm' n']|e] eqn:Hr; [|discriminate].
    apply resolve_loop_optimal in Hr as (Hwf' & Hrefs' & Hopt'); auto.
    simpl in Hwf', Hrefs', Hopt'.
    revert H. apply IH; auto. simpl. intros _ [].
Qed.

End LocalOptimum.

(** C1 (counterexample): with the user comparator
    [other.value.startswith(self.value)], resolving ["Cheese100g"] then
    ["Cheese"] leaves two clusters; [weightsum] of the second with the first
    is [log(0.9/0.1) > 0]. The completion loop pops that pair, but the local
    [_cluster_solve] only scores the pair as [weightsum(cluster_1, cluster_2)]
    with [oid_1 < oid_2], which is [0], and merges nothing. *)
Lemma resolve_not_locally_optimal :
  match SerialResolver.run [SerialResolver.OpResolve] (SerialResolver.init [r_long; r_short]) 0%nat with
  | Ok (sr, _) => ~ locally_optimal (SerialResolver.cluster_map sr)
  | Err _ => False
  end.
Proof.
  pose proof ln_match_default as Hm.
  assert (W1 : weightsum {| c_oid := 0; references := [r_long] |}
                         {| c_oid := 1; references := [r_short] |} = Some 0).
  { run_model. reflexivity. }
  assert (W2 : weightsum {| c_oid := 1; references := [r_short] |}
                         {| c_oid := 0; references := [r_long] |} =
               Some (ln (9 / 10 / (1 / 10)))).
  { run_model. f_equal. lra. }
  ev_run. repeat (first [rewrite W1 | rewrite W2 | rdec]; ev_run).
  intros Hopt.
  assert (ln (9 / 10 / (1 / 10)) <= 0).
  { apply (Hopt 1%nat _ 0%nat _ _ (or_intror (or_introl eq_refl)) (or_introl eq_refl));
      [discriminate | exact W2]. }
  lra.
Qed.

(** C1 (amended): when [compare] is symmetric on the references ingested
    by the constructor and by [add], then after any sequence of calls
    ending with [resolve()], no two distinct entries of [cluster_map] have a
    positive weightsum (an exception raised on the way is a separate
    outcome). *)
Theorem resolve_locally_optimal (refs : list Reference) (ops : list SerialResolver.op) (n : nat) :
  (forall r1 r2, In r1 (refs ++ ops_refs ops) -> In r2 (refs ++ ops_refs ops) ->
     compare r1 r2 = compare r2 r1) ->
  match SerialResolver.run (ops ++ [SerialResolver.OpResolve]) (SerialResolver.init refs) n with
  | Ok (sr, _) => locally_optimal (SerialResolver.cluster_map sr)
  | Err _ => True
  end.
Proof.
  intros Hsym.
  destruct (SerialResolver.run _ _ n) as [[sr n']|e] eqn:E; [|exact I].
  apply (run_optimal (refs ++ ops_refs ops) Hsym _ (SerialResolver.init refs) n _ (wf_cmap_nil n)) in E.
  - exact E.
  - intros k c r [].
  - intros r Hr. apply in_or_app. now left.
  - intros r Hr. rewrite ops_refs_app in Hr. simpl in Hr. rewrite app_nil_r in Hr.
    apply in_or_app. now right.
  - intros k1 c1 k2 c2 w [].
Qed.

(** Two references of the default [Field]: [compare] is symmetric on them. *)
Lemma resolve_locally_optimal_witness :
  (forall r1 r2, In r1 ([r_cheese; r_yogurt] ++ ops_refs []) ->
     In r2 ([r_cheese; r_yogurt] ++ ops_refs []) -> compare r1 r2 = compare r2 r1) /\
  match SerialResolver.run ([] ++ [SerialResolver.OpResolve])
          (SerialResolver.init [r_cheese; r_yogurt]) 0%nat with
  | Ok (sr, _) => locally_optimal (SerialResolver.cluster_map sr)
  | Err _ => True
  end.
Proof.
  assert (H : forall r1 r2, In r1 ([r_cheese; r_yogurt] ++ ops_refs []) ->
                In r2 ([r_cheese; r_yogurt] ++ ops_refs []) -> compare r1 r2 = compare r2 r1).
  { simpl. intros r1 r2 [<-|[<-|[]]] [<-|[<-|[]]]; ev; reflexivity. }
  split; [exact H | exact (resolve_locally_optimal [r_cheese; r_yogurt] [] 0%nat H)].
Defined.

(** ** Conservation of references *)

Lemma NoDup_app_disjoint {A} (l1 l2 : list A) a :
  NoDup (l1 ++ l2) -> In a l1 -> ~ In a l2.
Proof.
  induction l1 as [|x l1 IH]; simpl; [tauto|].
  intros Hnd [<-|Ha] Hb; inversion Hnd as [|? ? Hnot Hnd']; subst.
  - apply Hnot. apply in_or_app. now right.
  - exact (IH Hnd' Ha Hb).
Qed.

Lemma ref_union_disjoint l1 l2 :
  NoDup (map r_oid (l1 ++ l2)) -> ref_union l1 l2 = l1 ++ l2.
Proof.
  intros Hnd. unfold ref_union. f_equal. apply filter_keep_all.
  intros x Hx. apply negb_true_iff. unfold ref_mem.
  destruct (existsb _ l1) eqn:E; [|reflexivity]. exfalso.
  apply existsb_exists in E as (r' & Hr' & Heq). apply Nat.eqb_eq in Heq.
  rewrite map_app in Hnd.
  apply (NoDup_app_disjoint _ _ (r_oid r') Hnd); [now apply in_map|].
  rewrite <- Heq. now apply in_map.
Qed.

Lemma refs_remove_key k v (d : cmap) :
  NoDup (map fst d) -> In (k, v) d ->
  Permutation (flat_map references (map snd d))
    (references v ++
     flat_map references (map snd (filter (fun kv => negb (Nat.eqb (fst kv) k)) d))).
Proof.
  induction d as [|[k' v'] d IH]; simpl; [tauto|].
  intros Hnd Hin. inversion Hnd as [|? ? Hnot Hnd']; subst.
  destruct Hin as [[= <- <-]|Hin].
  - rewrite Nat.eqb_refl. simpl. rewrite filter_keep_all; [reflexivity|].
    intros [k'' v''] Hx. apply negb_true_iff, Nat.eqb_neq. simpl. intros Heq. subst k''.
    apply Hnot. now apply (in_map fst) in Hx.
  - assert (Hne : k' <> k).
    { intros ->. apply Hnot. now apply (in_map fst) in Hin. }
    apply Nat.eqb_neq in Hne. rewrite Hne. simpl.
    rewrite (IH Hnd' Hin). apply Permutation_app_swap_app.
Qed.

Lemma refs_app (d1 d2 : cmap) :
  flat_map references (map snd (d1 ++ d2)) =
  flat_map references (map snd d1) ++ flat_map references (map snd d2).
Proof. now rewrite map_app, flat_map_app. Qed.

Lemma NoDup_oids_perm (l l' : list Reference) :
  Permutation l l' -> NoDup (map r_oid l) -> NoDup (map r_oid l').
Proof. intros Hp. apply Permutation_NoDup. now apply Permutation_map. Qed.

Lemma stream_loop_conserves fuel : forall active cm n res,
  wf_cmap cm n ->
  NoDup (map r_oid (flat_map references (map snd cm))) ->
  stream_loop fuel active cm n = Ok res ->
  wf_cmap (fst res) (snd res) /\
  Permutation (flat_map references (map snd (fst res))) (flat_map references (map snd cm)).
Proof.
  induction fuel as [|fuel IH]; intros active cm n res Hwf Hnd H; [discriminate|].
  destruct (stream_loop_step fuel active cm n res Hwf H)
    as [[-> _]|(ao & ac & o & c & w0 & c1 & c2 & w & Ha & Hc & Hne & Hw0 & Hpos &
                H1 & H2 & Hw & [[Hle Hrest]|[Hgt Hrest]])].
  - simpl. auto.
  - exact (IH [] cm n res Hwf Hnd Hrest).
  - set (Mc := {| c_oid := n; references := ref_union (references c1) (references c2) |})
      in *.
    set (k1 := Nat.min ao o) in *. set (k2 := Nat.max ao o) in *.
    assert (Hk : k1 <> k2) by (unfold k1, k2; lia).
    assert (Hc1 : In (k1, c1) cm) by now apply dict_get_In.
    assert (Hc2 : In (k2, c2) cm) by now apply dict_get_In.
    set (D := cm ++ [(n, Mc)]).
    set (F1 := filter (fun kv => negb (Nat.eqb (fst kv) k1)) D).
    set (F2 := filter (fun kv => negb (Nat.eqb (fst kv) k2)) F1).
    assert (HwfD : wf_cmap D (S n)) by now apply wf_app_fresh.
    assert (HwfF1 : wf_cmap F1 (S n)) by now apply wf_filter_key.
    assert (HwfF2 : wf_cmap F2 (S n)) by now apply wf_filter_key.
    (* the two merged clusters hold distinct references *)
    set (G1 := filter (fun kv => negb (Nat.eqb (fst kv) k1)) cm).
    assert (Pcm : Permutation (flat_map references (map snd cm))
                    (references c1 ++ references c2 ++
                     flat_map references
                       (map snd (filter (fun kv => negb (Nat.eqb (fst kv) k2)) G1)))).
    { rewrite (refs_remove_key k1 c1 cm (proj1 Hwf) Hc1).
      apply Permutation_app_head. apply refs_remove_key.
      - now apply NoDup_filter_keys, Hwf.
      - apply In_filter_key. auto. }
    assert (Hdisj : NoDup (map r_oid (references c1 ++ references c2))).
    { apply (NoDup_oids_perm _ _ Pcm) in Hnd. rewrite app_assoc, map_app in Hnd.
      now apply NoDup_app_remove_r in Hnd. }
    assert (HMc : references Mc = references c1 ++ references c2)
      by (simpl; now apply ref_union_disjoint).
    assert (PD : Permutation (flat_map references (map snd D))
                   (references c1 ++ references c2 ++ flat_map references (map snd F2))).
    { rewrite (refs_remove_key k1 c1 D (proj1 HwfD)) by (apply in_or_app; now left).
      apply Permutation_app_head. apply refs_remove_key; [apply HwfF1|].
      apply In_filter_key. split; [apply in_or_app; now left | auto]. }
    assert (P3 : Permutation (flat_map references (map snd F2))
                   (flat_map references (map snd cm))).
    { apply (Permutation_app_inv_r (references c1 ++ references c2)).
      rewrite Permutation_app_comm, <- app_assoc, <- PD.
      unfold D. rewrite refs_app.
      change (flat_map references (map snd [(n, Mc)])) with (references Mc ++ []).
      rewrite app_nil_r, HMc. reflexivity. }
    destruct (IH _ _ _ res HwfF2 (NoDup_oids_perm _ _ (Permutation_sym P3) Hnd) Hrest)
      as [Hwf' Hp'].
    split; [exact Hwf'|]. now rewrite Hp'.
Qed.

Lemma resolve_loop_conserves refs : forall cm n res,
  wf_cmap cm n ->
  NoDup (map r_oid (flat_map references (map snd cm) ++ refs)) ->
  SerialResolver.resolve_loop refs cm n = Ok res ->
  wf_cmap (fst res) (snd res) /\
  Permutation (flat_map references (map snd (fst res)))
              (flat_map references (map snd cm) ++ refs).
Proof.
  induction refs as [|r refs IH]; intros cm n res Hwf Hnd H.
  - simpl in H. unfold ret in H. injection H as <-. simpl. rewrite app_nil_r. auto.
  - simpl in H. unfold bind in H.
    rewrite (cluster_stream_reference r cm n (wf_fresh cm n Hwf)) in H.
    set (N := {| c_oid := n; references := [r] |}) in *.
    destruct (stream_loop _ _ _ _) as [[cm' n']|e] eqn:Hs; [|discriminate].
    assert (HD : flat_map references (map snd (cm ++ [(n, N)])) =
                 flat_map references (map snd cm) ++ [r]).
    { rewrite refs_app. reflexivity. }
    assert (Hnd' : NoDup (map r_oid ((flat_map references (map snd cm) ++ [r]) ++ refs)))
      by now rewrite <- app_assoc.
    apply stream_loop_conserves in Hs as [Hwf' Hp];
      [| now apply wf_app_fresh
       | rewrite HD; rewrite map_app in Hnd'; now apply NoDup_app_remove_r in Hnd'].
    simpl in Hwf', Hp. rewrite HD in Hp.
    assert (Hnd'' : NoDup (map r_oid (flat_map references (map snd cm') ++ refs)))
      by (apply (NoDup_oids_perm _ _ (Permutation_app_tail refs (Permutation_sym Hp))); exact Hnd').
    destruct (IH cm' n' res Hwf' Hnd'' H) as [Hwf'' Hp''].
    split; [exact Hwf''|]. rewrite Hp'', Hp, <- app_assoc. reflexivity.
Qed.

Lemma run_conserves ops : forall sr n res,
  wf_cmap (SerialResolver.cluster_map sr) n ->
  NoDup (map r_oid (flat_map references (map snd (SerialResolver.cluster_map sr)) ++
                    SerialResolver.references sr ++ ops_refs ops)) ->
  SerialResolver.run ops sr n = Ok res ->
  Permutation (flat_map references (map snd (SerialResolver.cluster_map (fst res))) ++
               SerialResolver.references (fst res))
              (flat_map references (map snd (SerialResolver.cluster_map sr)) ++
               SerialResolver.references sr ++ ops_refs ops).
Proof.
  induction ops as [|[[r|rs]|] ops IH]; intros sr n res Hwf Hnd H.
  - simpl in H. unfold ret in H. injection H as <-. simpl. now rewrite app_nil_r.
  - simpl in H. simpl ops_refs in *.
    replace (SerialResolver.references sr ++ r :: ops_refs ops)
      with (SerialResolver.references (SerialResolver.add sr (SerialResolver.AddOne r)) ++
            ops_refs ops) in *
      by (simpl; now rewrite <- app_assoc).
    exact (IH (SerialResolver.add sr (SerialResolver.AddOne r)) n res Hwf Hnd H).
  - simpl in H. simpl ops_refs in *.
    replace (SerialResolver.references sr ++ rs ++ ops_refs ops)
      with (SerialResolver.references (SerialResolver.add sr (SerialResolver.AddList rs)) ++
            ops_refs ops) in *
      by (simpl; now rewrite <- app_assoc).
    exact (IH (SerialResolver.add sr (SerialResolver.AddList rs)) n res Hwf Hnd H).
  - simpl in H. simpl ops_refs in *. unfold bind, SerialResolver.resolve, bind, ret in H.
    destruct (SerialResolver.resolve_loop _ _ n) as [[cm' n']|e] eqn:Hr; [|discriminate].
    assert (Hnd1 : NoDup (map r_oid (flat_map references (map snd (SerialResolver.cluster_map sr)) ++
                                     SerialResolver.references sr)))
      by (rewrite app_assoc, map_app in Hnd; now apply NoDup_app_remove_r in Hnd).
    apply resolve_loop_conserves in Hr as [Hwf' Hp]; auto. simpl in Hwf', Hp.
    set (sr' := {| SerialResolver.references := [];
                   SerialResolver.clusters := SerialResolver.clusters sr;
                   SerialResolver.cluster_map := cm' |}) in *.
    assert (Hnd2 : NoDup (map r_oid (flat_map references (map snd (SerialResolver.cluster_map sr')) ++
                                     SerialResolver.references sr' ++ ops_refs ops))).
    { simpl. apply (NoDup_oids_perm ((flat_map references (map snd (SerialResolver.cluster_map sr)) ++
                                       SerialResolver.references sr) ++ ops_refs ops)).
      - apply Permutation_app_tail. now apply Permutation_sym.
      - now rewrite <- app_assoc. }
    pose proof (IH sr' n' res Hwf' Hnd2 H) as Hp'. simpl in Hp'.
    rewrite Hp', app_assoc. apply Permutation_app_tail. exact Hp.
Qed.

Lemma run_resolve_last ops : forall sr n res,
  SerialResolver.run (ops ++ [SerialResolver.OpResolve]) sr n = Ok res ->
  SerialResolver.references (fst res) = [].
Proof.
  induction ops as [|[a|] ops IH]; intros sr n res H.
  - simpl in H. unfold bind, SerialResolver.resolve, bind, ret in H.
    destruct (SerialResolver.resolve_loop _ _ n) as [[cm' n']|e]; [|discriminate].
    injection H as <-. reflexivity.
  - simpl in H. exact (IH _ n res H).
  - simpl in H. unfold bind at 1 in H.
    destruct (SerialResolver.resolve sr n) as [[sr' n']|e]; [|discriminate].
    exact (IH _ n' res H).
Qed.

(** C7 (counterexample): the same Reference object ingested twice. Both
    singleton clusters merge, and the union of their reference sets holds it
    once: the clusters hold one reference, not the two ingested. *)
Lemma resolve_duplicate_reference_lost :
  match SerialResolver.run [SerialResolver.OpResolve]
          (SerialResolver.init [r_cheese; r_cheese]) 0%nat with
  | Ok (sr, _) =>
      ~ Permutation (flat_map references (SerialResolver.get_clusters sr)) [r_cheese; r_cheese]
  | Err _ => False
  end.
Proof.
  pose proof ln_match_default as Hm.
  assert (W1 : weightsum {| c_oid := 0; references := [r_cheese] |}
                         {| c_oid := 1; references := [r_cheese] |} =
               Some (ln (9 / 10 / (1 / 10)))).
  { run_model. f_equal. lra. }
  assert (W2 : weightsum {| c_oid := 1; references := [r_cheese] |}
                         {| c_oid := 0; references := [r_cheese] |} =
               Some (ln (9 / 10 / (1 / 10)))).
  { run_model. f_equal. lra. }
  assert (O : r_oid r_cheese = 0%nat) by reflexivity.
  ev_run. repeat (first [rewrite W1 | rewrite W2 | rewrite O | rdec]; ev_run).
  intros Hp. apply Permutation_length in Hp. discriminate.
Qed.

(** C7 (amended): when the ingested references have pairwise distinct
    oids, after any sequence of calls ending with [resolve()] the queue is
    empty and the references of the clusters in [cluster_map] are a
    permutation of the ingested ones (an exception raised on the way is a
    separate outcome). *)
Theorem resolve_conserves_references (refs : list Reference) (ops : list SerialResolver.op)
  (n : nat) :
  NoDup (map r_oid (refs ++ ops_refs ops)) ->
  match SerialResolver.run (ops ++ [SerialResolver.OpResolve]) (SerialResolver.init refs) n with
  | Ok (sr, _) =>
      SerialResolver.references sr = [] /\
      Permutation (flat_map references (SerialResolver.get_clusters sr)) (refs ++ ops_refs ops)
  | Err _ => True
  end.
Proof.
  intros Hnd.
  destruct (SerialResolver.run _ _ n) as [[sr n']|e] eqn:E; [|exact I].
  pose proof (run_resolve_last ops _ n (sr, n') E) as Hnil. simpl in Hnil.
  split; [exact Hnil|].
  apply (run_conserves _ (SerialResolver.init refs) n) in E.
  - simpl in E. rewrite Hnil, ops_refs_app in E. simpl in E. rewrite !app_nil_r in E.
    exact E.
  - apply wf_cmap_nil.
  - simpl. now rewrite ops_refs_app, app_nil_r.
Qed.

(** Two references of distinct oids. *)
Lemma resolve_conserves_references_witness :
  NoDup (map r_oid ([r_cheese; r_yogurt] ++ ops_refs [])) /\
  match SerialResolver.run ([] ++ [SerialResolver.OpResolve])
          (SerialResolver.init [r_cheese; r_yogurt]) 0%nat with
  | Ok (sr, _) =>
      SerialResolver.references sr = [] /\
      Permutation (flat_map references (SerialResolver.get_clusters sr))
                  ([r_cheese; r_yogurt] ++ ops_refs [])
  | Err _ => True
  end.
Proof.
  assert (H : NoDup (map r_oid ([r_cheese; r_yogurt] ++ ops_refs [])))
    by (simpl; repeat constructor; simpl; intuition discriminate).
  split; [exact H | exact (resolve_conserves_references [r_cheese; r_yogurt] [] 0%nat H)].
Defined.

(** ** Instances: the hypotheses of the theorems met by concrete inputs *)

(** A reference with its one field populated. *)
Lemma compare_self_positive_witness :
  exists w, compare r_cheese r_cheese = Some w /\ 0 < w.
Proof.
  apply compare_self_positive.
  - simpl. intros name [<-|[]]. discriminate.
  - intros name fc v Hs Hv _. simpl in Hs.
    destruct (String.eqb name "observed_name") in Hs; [|discriminate].
    injection Hs as <-. simpl. split; [apply String.eqb_refl | lra].
  - exists "observed_name"%string, Field, "PrimeHarvestCheese10Qg"%string.
    repeat split.
Defined.

(** Two references of the default schema, whose comparator is [==]. *)
Lemma compare_symmetric_same_schema_witness :
  compare r_cheese r_yogurt = compare r_yogurt r_cheese.
Proof.
  apply compare_symmetric_same_schema; [reflexivity | reflexivity |].
  intros name fc Hs a b. simpl in Hs.
  destruct (String.eqb name "observed_name") in Hs; [|discriminate].
  injection Hs as <-. apply String.eqb_sym.
Defined.

(** A map of two singleton clusters. *)
Lemma cluster_pass_spec_witness :
  match cluster_pass [(0%nat, {| c_oid := 0; references := [r_cheese] |});
                      (1%nat, {| c_oid := 1; references := [r_yogurt] |})] 2%nat with
  | Ok ((cm', optimal), n') =>
      (optimal = true /\ cm' = [(0%nat, {| c_oid := 0; references := [r_cheese] |});
                                (1%nat, {| c_oid := 1; references := [r_yogurt] |})] /\
       n' = 2%nat /\
       forall o1 c1 o2 c2 w,
         In (o1, c1) [(0%nat, {| c_oid := 0; references := [r_cheese] |});
                      (1%nat, {| c_oid := 1; references := [r_yogurt] |})] ->
         In (o2, c2) [(0%nat, {| c_oid := 0; references := [r_cheese] |});
                      (1%nat, {| c_oid := 1; references := [r_yogurt] |})] ->
         (o1 < o2)%nat -> weightsum c1 c2 = Some w -> w <= 0)
      \/
      (optimal = false /\ n' = 3%nat /\
       exists o1 c1 o2 c2 w,
         In (o1, c1) [(0%nat, {| c_oid := 0; references := [r_cheese] |});
                      (1%nat, {| c_oid := 1; references := [r_yogurt] |})] /\
         In (o2, c2) [(0%nat, {| c_oid := 0; references := [r_cheese] |});
                      (1%nat, {| c_oid := 1; references := [r_yogurt] |})] /\
         (o1 < o2)%nat /\ weightsum c1 c2 = Some w /\ 0 < w /\
         (forall o1' c1' o2' c2' w',
            In (o1', c1') [(0%nat, {| c_oid := 0; references := [r_cheese] |});
                           (1%nat, {| c_oid := 1; references := [r_yogurt] |})] ->
            In (o2', c2') [(0%nat, {| c_oid := 0; references := [r_cheese] |});
                           (1%nat, {| c_oid := 1; references := [r_yogurt] |})] ->
            (o1' < o2')%nat -> weightsum c1' c2' = Some w' -> w' <= w) /\
         cm' = dict_set 2%nat {| c_oid := 2; references := ref_union (references c1) (references c2) |}
                 (filter (fun kv => negb (Nat.eqb (fst kv) o2))
                    (filter (fun kv => negb (Nat.eqb (fst kv) o1))
                       [(0%nat, {| c_oid := 0; references := [r_cheese] |});
                        (1%nat, {| c_oid := 1; references := [r_yogurt] |})])))
  | Err _ => True
  end.
Proof.
  apply (cluster_pass_spec _ 2%nat).
  repeat constructor; simpl; intuition discriminate.
Defined.

(** A map of two singleton clusters, the counter past both keys. *)
Lemma cluster_solve_terminates_witness :
  (forall cm' n',
     cluster_pass [(0%nat, {| c_oid := 0; references := [r_cheese] |});
                   (1%nat, {| c_oid := 1; references := [r_yogurt] |})] 2%nat =
       Ok ((cm', false), n') ->
     S (List.length cm') = 2%nat) /\
  (forall changed,
     cluster_solve_loop 2 [(0%nat, {| c_oid := 0; references := [r_cheese] |});
                           (1%nat, {| c_oid := 1; references := [r_yogurt] |})] changed 2%nat
       <> Err OutOfFuel) /\
  cluster_solve [(0%nat, {| c_oid := 0; references := [r_cheese] |});
                 (1%nat, {| c_oid := 1; references := [r_yogurt] |})] 2%nat <> Err OutOfFuel.
Proof.
  apply (cluster_solve_terminates
           [(0%nat, {| c_oid := 0; references := [r_cheese] |});
            (1%nat, {| c_oid := 1; references := [r_yogurt] |})] 2%nat).
  - repeat constructor; simpl; intuition discriminate.
  - simpl. intros k [<-|[<-|[]]]; lia.
Defined.

(** * Further properties of the resolvers *)

(** ** The completion loop runs to its end *)

Lemma wf_cmap_mono cm n n' : wf_cmap cm n -> (n <= n')%nat -> wf_cmap cm n'.
Proof. intros [Hnd Hlt] Hle. split; [exact Hnd|]. intros k Hk. specialize (Hlt k Hk). lia. Qed.

Lemma oid_keyed_filter_key (cm : cmap) k :
  oid_keyed cm -> oid_keyed (filter (fun kv => negb (Nat.eqb (fst kv) k)) cm).
Proof. intros H k' c Hin. apply In_filter_key in Hin as [Hin _]. eauto. Qed.

Lemma oid_keyed_app_new (cm : cmap) n rs :
  oid_keyed cm -> oid_keyed (cm ++ [(n, {| c_oid := n; references := rs |})]).
Proof.
  intros H k c Hin. apply in_app_or in Hin as [Hin|[[= <- <-]|[]]]; [eauto | reflexivity].
Qed.

(** [_cluster_stream] appends the new cluster under the next oid, as the
    only active cluster. *)
Lemma new_cluster_stream o cm n :
  ~ In n (map fst cm) ->
  cluster_stream o cm n =
  stream_loop (S (S (List.length (cm ++ [(n, {| c_oid := n; references := observation_references o |})]))))
    [(n, {| c_oid := n; references := observation_references o |})]
    (cm ++ [(n, {| c_oid := n; references := observation_references o |})]) (S n).
Proof.
  intros Hn. destruct o; unfold cluster_stream, new_cluster_of, bind, next_id, ret;
    cbn [c_oid observation_references]; rewrite dict_set_fresh by exact Hn; reflexivity.
Qed.

Lemma stream_loop_no_active fuel cm n : stream_loop (S fuel) [] cm n = Ok (cm, n).
Proof. reflexivity. Qed.

(** One iteration of the completion loop, whatever its outcome. *)
Lemma stream_loop_cases fuel active cm n :
  wf_cmap cm n ->
  stream_loop (S fuel) active cm n = Err AttributeError \/
  stream_loop (S fuel) active cm n = Ok (cm, n) \/
  stream_loop (S fuel) active cm n = stream_loop fuel [] cm n \/
  exists k1 c1 k2 c2,
    In (k1, c1) cm /\ In (k2, c2) cm /\ k1 <> k2 /\
    stream_loop (S fuel) active cm n =
    stream_loop fuel
      [(n, {| c_oid := n; references := ref_union (references c1) (references c2) |})]
      (filter (fun kv => negb (Nat.eqb (fst kv) k2))
         (filter (fun kv => negb (Nat.eqb (fst kv) k1))
            (cm ++ [(n, {| c_oid := n;
                           references := ref_union (references c1) (references c2) |})])))
      (S n).
Proof.
  intros Hwf. remember (stream_loop (S fuel) active cm n) as X eqn:HX.
  cbn [stream_loop] in HX. unfold bind, lift, ret, raise in HX.
  destruct (stream_pairs active cm []) as [ps|] eqn:Hps;
    [|left; exact HX].
  destruct (pop_max ps) as [best|] eqn:Hpop; [|right; left; exact HX].
  destruct (pop_max_Some ps best Hpop) as [Hbest _].
  destruct (stream_pairs_sound active cm [] ps Hps best Hbest)
    as [[]|(ao & ac & o & c & w0 & Ha & Hc & Hne & Hw0 & Hpos & ->)].
  cbn [cluster_oid_1 cluster_oid_2 mk_pair] in HX.
  destruct (dict_get (Nat.min ao o) cm) as [c1|] eqn:H1;
    [|left; exact HX].
  destruct (dict_get (Nat.max ao o) cm) as [c2|] eqn:H2;
    [|left; exact HX].
  assert (Hlt : (Nat.min ao o < Nat.max ao o)%nat) by lia.
  rewrite (cluster_solve_two _ c1 _ c2 n Hlt) in HX.
  destruct (weightsum c1 c2) as [w|];
    [|left; exact HX].
  destruct (Rleb w 0) eqn:Hr.
  - right; right; left. subst X.
    unfold absorb_solution. cbn [fold_left]. rewrite H1, H2.
    unfold drop_if_absent, ret. cbn [dict_get].
    rewrite Nat.eqb_refl.
    assert (E : Nat.eqb (Nat.max ao o) (Nat.min ao o) = false) by (apply Nat.eqb_neq; lia).
    rewrite E, Nat.eqb_refl. reflexivity.
  - right; right; right. subst X.
    set (Mc := {| c_oid := n; references := ref_union (references c1) (references c2) |}).
    assert (Hk1 : In (Nat.min ao o, c1) cm) by now apply dict_get_In.
    assert (Hk2 : In (Nat.max ao o, c2) cm) by now apply dict_get_In.
    exists (Nat.min ao o), c1, (Nat.max ao o), c2.
    split; [exact Hk1|]. split; [exact Hk2|]. split; [lia|].
    assert (L1 : (Nat.min ao o < n)%nat)
      by (apply (proj2 Hwf); now apply (in_map fst) in Hk1).
    assert (L2 : (Nat.max ao o < n)%nat)
      by (apply (proj2 Hwf); now apply (in_map fst) in Hk2).
    unfold absorb_solution. cbn [fold_left].
    rewrite (dict_get_None n cm (wf_fresh cm n Hwf)).
    rewrite (dict_set_fresh n Mc cm (wf_fresh cm n Hwf)).
    cbn [dict_set].
    unfold drop_if_absent, lift, ret, raise. cbn [dict_get].
    assert (E1 : Nat.eqb (Nat.min ao o) n = false) by (apply Nat.eqb_neq; lia).
    assert (E2 : Nat.eqb (Nat.max ao o) n = false) by (apply Nat.eqb_neq; lia).
    rewrite E1, E2.
    rewrite (dict_del_In (Nat.min ao o) (cm ++ [(n, Mc)]) c1)
      by (apply in_or_app; now left).
    rewrite (dict_del_In (Nat.max ao o) _ c2).
    + reflexivity.
    + apply In_filter_key. split; [apply in_or_app; now left | lia].
Qed.

(** A merge in the completion loop leaves one entry less, well formed. *)
Lemma merge_step_wf (cm : cmap) n k1 c1 k2 c2 rs :
  wf_cmap cm n -> In (k1, c1) cm -> In (k2, c2) cm -> k1 <> k2 ->
  let D := filter (fun kv => negb (Nat.eqb (fst kv) k2))
             (filter (fun kv => negb (Nat.eqb (fst kv) k1))
                (cm ++ [(n, {| c_oid := n; references := rs |})])) in
  wf_cmap D (S n) /\ S (List.length D) = List.length cm.
Proof.
  intros Hwf H1 H2 Hne D.
  assert (HwfA : wf_cmap (cm ++ [(n, {| c_oid := n; references := rs |})]) (S n))
    by now apply wf_app_fresh.
  split; [now apply wf_filter_key, wf_filter_key|].
  assert (LA : S (List.length (filter (fun kv => negb (Nat.eqb (fst kv) k1))
                 (cm ++ [(n, {| c_oid := n; references := rs |})]))) =
               List.length (cm ++ [(n, {| c_oid := n; references := rs |})])).
  { apply length_filter_key; [apply HwfA|]. rewrite map_app. apply in_or_app. left.
    now apply (in_map fst) in H1. }
  assert (LB : S (List.length D) =
               List.length (filter (fun kv => negb (Nat.eqb (fst kv) k1))
                 (cm ++ [(n, {| c_oid := n; references := rs |})]))).
  { apply length_filter_key; [apply NoDup_filter_keys, HwfA|].
    apply keys_In_filter. split; [|auto]. rewrite map_app. apply in_or_app. left.
    now apply (in_map fst) in H2. }
  rewrite length_app in LA. simpl in LA. lia.
Qed.

Lemma stream_loop_err fuel : forall active cm n e,
  wf_cmap cm n -> (List.length cm + 2 <= fuel)%nat ->
  stream_loop fuel active cm n = Err e -> e = AttributeError.
Proof.
  induction fuel as [|fuel IH]; intros active cm n e Hwf Hf H; [lia|].
  destruct (stream_loop_cases fuel active cm n Hwf)
    as [E|[E|[E|(k1 & c1 & k2 & c2 & H1 & H2 & Hne & E)]]]; rewrite E in H.
  - now injection H.
  - discriminate.
  - destruct fuel as [|fuel']; [lia|]. rewrite stream_loop_no_active in H. discriminate.
  - destruct (merge_step_wf cm n k1 c1 k2 c2
                (ref_union (references c1) (references c2)) Hwf H1 H2 Hne) as [Hwf' HL].
    exact (IH _ _ _ e Hwf' ltac:(lia) H).
Qed.

(** The completion loop keeps the map well formed and keyed by oids, and
    only moves the counter forward. *)
Lemma stream_loop_inv fuel : forall active cm n res,
  wf_cmap cm n -> stream_loop fuel active cm n = Ok res ->
  wf_cmap (fst res) (snd res) /\ (n <= snd res)%nat /\
  (oid_keyed cm -> oid_keyed (fst res)).
Proof.
  induction fuel as [|fuel IH]; intros active cm n res Hwf H; [discriminate|].
  destruct (stream_loop_cases fuel active cm n Hwf)
    as [E|[E|[E|(k1 & c1 & k2 & c2 & H1 & H2 & Hne & E)]]];
    rewrite E in H.
  - discriminate.
  - injection H as <-. simpl. auto.
  - destruct fuel as [|fuel']; [discriminate|]. rewrite stream_loop_no_active in H.
    injection H as <-. simpl. auto.
  - destruct (merge_step_wf cm n k1 c1 k2 c2
                (ref_union (references c1) (references c2)) Hwf H1 H2 Hne) as [Hwf' _].
    destruct (IH _ _ _ res Hwf' H) as (Hw & Hle & Hk).
    split; [exact Hw|]. split; [lia|].
    intros Hkey. apply Hk. apply oid_keyed_filter_key, oid_keyed_filter_key.
    now apply oid_keyed_app_new.
Qed.

Lemma cluster_stream_err o cm n e :
  wf_cmap cm n -> cluster_stream o cm n = Err e -> e = AttributeError.
Proof.
  intros Hwf H. rewrite (new_cluster_stream o cm n (wf_fresh cm n Hwf)) in H.
  refine (stream_loop_err _ _ _ _ e _ _ H); [now apply wf_app_fresh | lia].
Qed.

Lemma cluster_stream_inv o cm n res :
  wf_cmap cm n -> cluster_stream o cm n = Ok res ->
  wf_cmap (fst res) (snd res) /\ (n < snd res)%nat /\
  (oid_keyed cm -> oid_keyed (fst res)).
Proof.
  intros Hwf H. rewrite (new_cluster_stream o cm n (wf_fresh cm n Hwf)) in H.
  destruct (stream_loop_inv _ _ _ _ res (wf_app_fresh cm n _ Hwf) H) as (Hw & Hle & Hk).
  split; [exact Hw|]. split; [lia|]. intros Hkey. apply Hk. now apply oid_keyed_app_new.
Qed.

Lemma cluster_stream_conserves o cm n res :
  wf_cmap cm n ->
  NoDup (map r_oid (flat_map references (map snd cm) ++ observation_references o)) ->
  cluster_stream o cm n = Ok res ->
  Permutation (flat_map references (map snd (fst res)))
              (flat_map references (map snd cm) ++ observation_references o).
Proof.
  intros Hwf Hnd H. rewrite (new_cluster_stream o cm n (wf_fresh cm n Hwf)) in H.
  assert (HD : flat_map references
                 (map snd (cm ++ [(n, {| c_oid := n; references := observation_references o |})])) =
               flat_map references (map snd cm) ++ observation_references o).
  { rewrite refs_app. simpl. now rewrite app_nil_r. }
  apply stream_loop_conserves in H as [_ Hp].
  - now rewrite Hp, HD.
  - now apply wf_app_fresh.
  - now rewrite HD.
Qed.


(** ** The resolver loops *)

Lemma resolve_loop_inv refs : forall cm n res,
  wf_cmap cm n -> SerialResolver.resolve_loop refs cm n = Ok res ->
  wf_cmap (fst res) (snd res) /\ (n <= snd res)%nat /\
  (oid_keyed cm -> oid_keyed (fst res)).
Proof.
  induction refs as [|r refs IH]; intros cm n res Hwf H.
  - simpl in H. unfold ret in H. injection H as <-. simpl. auto.
  - simpl in H. unfold bind in H.
    destruct (cluster_stream (ObsReference r) cm n) as [[cm' n']|e] eqn:Hs; [|discriminate].
    destruct (cluster_stream_inv _ _ _ _ Hwf Hs) as (Hw & Hlt & Hk). simpl in Hw, Hlt, Hk.
    destruct (IH cm' n' res Hw H) as (Hw' & Hle & Hk').
    split; [exact Hw'|]. split; [lia|]. auto.
Qed.

Lemma resolve_loop_err refs : forall cm n e,
  wf_cmap cm n -> SerialResolver.resolve_loop refs cm n = Err e -> e = AttributeError.
Proof.
  induction refs as [|r refs IH]; intros cm n e Hwf H; simpl in H; unfold ret, bind in H;
    [discriminate|].
  destruct (cluster_stream (ObsReference r) cm n) as [[cm' n']|e'] eqn:Hs.
  - destruct (cluster_stream_inv _ _ _ _ Hwf Hs) as (Hw & _ & _). exact (IH _ _ _ Hw H).
  - injection H as <-. exact (cluster_stream_err _ _ _ _ Hwf Hs).
Qed.

Lemma resolve_inv sr n res :
  wf_cmap (SerialResolver.cluster_map sr) n -> SerialResolver.resolve sr n = Ok res ->
  wf_cmap (SerialResolver.cluster_map (fst res)) (snd res) /\ (n <= snd res)%nat /\
  (oid_keyed (SerialResolver.cluster_map sr) ->
   oid_keyed (SerialResolver.cluster_map (fst res))).
Proof.
  intros Hwf H. unfold SerialResolver.resolve, bind, ret in H.
  destruct (SerialResolver.resolve_loop _ _ n) as [[cm n']|e] eqn:Hr; [|discriminate].
  injection H as <-. exact (resolve_loop_inv _ _ _ _ Hwf Hr).
Qed.

Lemma resolve_err sr n e :
  wf_cmap (SerialResolver.cluster_map sr) n -> SerialResolver.resolve sr n = Err e ->
  e = AttributeError.
Proof.
  intros Hwf H. unfold SerialResolver.resolve, bind, ret in H.
  destruct (SerialResolver.resolve_loop _ _ n) as [[cm n']|e'] eqn:Hr; [discriminate|].
  injection H as <-. exact (resolve_loop_err _ _ _ _ Hwf Hr).
Qed.



(** ** [_resolve_clusters] *)

Lemma resolve_clusters_loop_inv cs : forall cm n res,
  wf_cmap cm n -> SerialResolver.resolve_clusters_loop cs cm n = Ok res ->
  wf_cmap (fst res) (snd res) /\ (n <= snd res)%nat /\
  (oid_keyed cm -> oid_keyed (fst res)).
Proof.
  induction cs as [|c cs IH]; intros cm n res Hwf H.
  - simpl in H. unfold ret in H. injection H as <-. simpl. auto.
  - simpl in H. unfold bind in H.
    destruct (cluster_stream (ObsCluster c) cm n) as [[cm' n']|e] eqn:Hs; [|discriminate].
    destruct (cluster_stream_inv _ _ _ _ Hwf Hs) as (Hw & Hlt & Hk). simpl in Hw, Hlt, Hk.
    destruct (IH cm' n' res Hw H) as (Hw' & Hle & Hk').
    split; [exact Hw'|]. split; [lia|]. auto.
Qed.

Lemma resolve_clusters_loop_err cs : forall cm n e,
  wf_cmap cm n -> SerialResolver.resolve_clusters_loop cs cm n = Err e -> e = AttributeError.
Proof.
  induction cs as [|c cs IH]; intros cm n e Hwf H; simpl in H; unfold ret, bind in H;
    [discriminate|].
  destruct (cluster_stream (ObsCluster c) cm n) as [[cm' n']|e'] eqn:Hs.
  - destruct (cluster_stream_inv _ _ _ _ Hwf Hs) as (Hw & _ & _). exact (IH _ _ _ Hw H).
  - injection H as <-. exact (cluster_stream_err _ _ _ _ Hwf Hs).
Qed.

Lemma resolve_clusters_loop_conserves cs : forall cm n res,
  wf_cmap cm n ->
  NoDup (map r_oid (flat_map references (map snd cm) ++ flat_map references cs)) ->
  SerialResolver.resolve_clusters_loop cs cm n = Ok res ->
  Permutation (flat_map references (map snd (fst res)))
              (flat_map references (map snd cm) ++ flat_map references cs).
Proof.
  induction cs as [|c cs IH]; intros cm n res Hwf Hnd H.
  - simpl in H. unfold ret in H. injection H as <-. simpl. now rewrite app_nil_r.
  - simpl in H. unfold bind in H.
    destruct (cluster_stream (ObsCluster c) cm n) as [[cm' n']|e] eqn:Hs; [|discriminate].
    destruct (cluster_stream_inv _ _ _ _ Hwf Hs) as (Hw & _ & _). simpl in Hw.
    cbn [flat_map] in Hnd. rewrite app_assoc in Hnd.
    assert (Hp : Permutation (flat_map references (map snd cm'))
                   (flat_map references (map snd cm) ++ references c)).
    { apply (cluster_stream_conserves (ObsCluster c) cm n (cm', n') Hwf); [|exact Hs].
      cbn [observation_references]. rewrite map_app in Hnd.
      now apply NoDup_app_remove_r in Hnd. }
    assert (Hnd' : NoDup (map r_oid (flat_map references (map snd cm') ++ flat_map references cs))).
    { apply (NoDup_oids_perm _ _ (Permutation_app_tail _ (Permutation_sym Hp))). exact Hnd. }
    rewrite (IH cm' n' res Hw Hnd' H). cbn [flat_map]. rewrite app_assoc.
    now apply Permutation_app_tail.
Qed.

(** ** [SerialResolver(None, _clusters=...)] *)

Lemma init_clusters_fold (l acc : cmap) :
  NoDup (map fst (acc ++ l)) -> oid_keyed l ->
  fold_left (fun cm c => dict_set (c_oid c) c cm) (map snd l) acc = acc ++ l.
Proof.
  revert acc. induction l as [|[k c] l IH]; intros acc Hnd Hkey; simpl; [now rewrite app_nil_r|].
  rewrite (Hkey k c (or_introl eq_refl)).
  rewrite dict_set_fresh.
  - rewrite IH.
    + now rewrite <- app_assoc.
    + now rewrite <- app_assoc.
    + intros k' c' H. apply Hkey. now right.
  - intros Hin. rewrite map_app in Hnd. simpl in Hnd.
    apply NoDup_remove_2 in Hnd. apply Hnd. now apply in_or_app; left.
Qed.

Lemma init_clusters_get_clusters (cm : cmap) :
  NoDup (map fst cm) -> oid_keyed cm ->
  SerialResolver.cluster_map (SerialResolver.init_clusters (map snd cm)) = cm.
Proof. intros Hnd Hkey. exact (init_clusters_fold cm [] Hnd Hkey). Qed.


(** ** [MergeResolver.resolve] *)

Lemma slices_spec {A} (k : nat) : (0 < k)%nat -> forall fuel (l : list A),
  (List.length l <= fuel)%nat ->
  List.concat (MergeResolver.slices fuel k l) = l /\
  Forall (fun p => p <> [] /\ (List.length p <= k)%nat) (MergeResolver.slices fuel k l) /\
  (l <> [] -> MergeResolver.slices fuel k l <> []).
Proof.
  intros Hk. induction fuel as [|fuel IH]; intros l Hl.
  - destruct l; simpl in Hl; [|lia]. simpl. repeat split; auto.
  - destruct l as [|x l']; simpl; [repeat split; auto|].
    destruct (IH (skipn k (x :: l'))) as (Hc & Hf & _).
    { rewrite length_skipn. cbn [List.length] in Hl |- *. lia. }
    rewrite Hc, firstn_skipn. split; [reflexivity|]. split; [|discriminate].
    constructor; [|exact Hf]. split.
    + destruct k; [lia|]. discriminate.
    + rewrite length_firstn. lia.
Qed.

Lemma layer_ok_mono l n n' : layer_ok l n -> (n <= n')%nat -> layer_ok l n'.
Proof.
  intros H Hle. eapply Forall_impl; [|exact H].
  intros sr [Hw Hk]. split; [eapply wf_cmap_mono; eauto | exact Hk].
Qed.

(** The merge of two resolvers of a layer: the first one's map, rebuilt
    by the constructor, receives the second one's clusters. *)
Lemma merge_pair_unfold sr_a sr_b :
  NoDup (map fst (SerialResolver.cluster_map sr_a)) ->
  oid_keyed (SerialResolver.cluster_map sr_a) ->
  MergeResolver.merge_pair sr_a sr_b =
  (cm <- SerialResolver.resolve_clusters_loop (SerialResolver.get_clusters sr_b)
           (SerialResolver.cluster_map sr_a) ;;
   ret {| SerialResolver.references := []; SerialResolver.clusters := [];
          SerialResolver.cluster_map := cm |}).
Proof.
  intros Hnd Hk. unfold MergeResolver.merge_pair, SerialResolver.resolve_clusters.
  cbn [SerialResolver.clusters SerialResolver.add_clusters SerialResolver.cluster_map
       SerialResolver.references app].
  change (SerialResolver.cluster_map (SerialResolver.init_clusters
            (SerialResolver.get_clusters sr_a)))
    with (SerialResolver.cluster_map (SerialResolver.init_clusters
            (map snd (SerialResolver.cluster_map sr_a)))).
  rewrite (init_clusters_get_clusters _ Hnd Hk). reflexivity.
Qed.

Lemma merge_pair_props sr_a sr_b n :
  wf_cmap (SerialResolver.cluster_map sr_a) n -> oid_keyed (SerialResolver.cluster_map sr_a) ->
  (forall e, MergeResolver.merge_pair sr_a sr_b n = Err e -> e = AttributeError) /\
  forall res, MergeResolver.merge_pair sr_a sr_b n = Ok res ->
    layer_ok [fst res] (snd res) /\ (n <= snd res)%nat /\
    (NoDup (map r_oid (layer_references [sr_a; sr_b])) ->
     Permutation (layer_references [fst res]) (layer_references [sr_a; sr_b])).
Proof.
  intros Hwf Hk. rewrite (merge_pair_unfold sr_a sr_b (proj1 Hwf) Hk).
  unfold bind, ret.
  destruct (SerialResolver.resolve_clusters_loop _ _ n) as [[cm n']|e] eqn:Hr.
  - split; [intros ? ?; discriminate|]. intros res [= <-]. simpl.
    destruct (resolve_clusters_loop_inv _ _ _ _ Hwf Hr) as (Hw & Hle & Hk'). simpl in *.
    split; [constructor; [split; [exact Hw | now apply Hk'] | constructor]|]. split; [exact Hle|].
    intros Hnd. rewrite !app_nil_r.
    unfold SerialResolver.get_clusters in *.
    apply (resolve_clusters_loop_conserves _ _ _ (cm, n') Hwf); [|exact Hr].
    simpl in Hnd. now rewrite app_nil_r in Hnd.
  - split; [intros e' [= <-]; exact (resolve_clusters_loop_err _ _ _ _ Hwf Hr)|].
    intros res; discriminate.
Qed.

Lemma pyramid_layer_props : forall k l n,
  (List.length l <= k)%nat -> layer_ok l n ->
  (forall e, MergeResolver.pyramid_layer l n = Err e -> e = AttributeError) /\
  forall res, MergeResolver.pyramid_layer l n = Ok res ->
    layer_ok (fst res) (snd res) /\ (n <= snd res)%nat /\
    List.length (fst res) = Nat.div2 (S (List.length l)) /\
    (NoDup (map r_oid (layer_references l)) ->
     Permutation (layer_references (fst res)) (layer_references l)).
Proof.
  induction k as [|k IH]; intros l n Hl Hok.
  - destruct l; simpl in Hl; [|lia]. simpl. unfold ret. split; [intros ? ?; discriminate|].
    intros res [= <-]. simpl. auto.
  - destruct l as [|sr_a [|sr_b rest]].
    + simpl. unfold ret. split; [intros ? ?; discriminate|]. intros res [= <-]. simpl. auto.
    + simpl. unfold ret. split; [intros ? ?; discriminate|]. intros res [= <-]. simpl. auto.
    + inversion Hok as [|? ? [Hwa Hka] Hok1]; subst.
      inversion Hok1 as [|? ? Hb Hrest]; subst.
      destruct (merge_pair_props sr_a sr_b n Hwa Hka) as [Hf Hm].
      cbn [MergeResolver.pyramid_layer]. unfold bind.
      destruct (MergeResolver.merge_pair sr_a sr_b n) as [[sr n1]|e] eqn:Hmp; cbv beta iota;
        [|split; [intros e' [= <-]; exact (Hf e eq_refl) | intros res; discriminate]].
      destruct (Hm (sr, n1) eq_refl) as (Hok_sr & Hle1 & Hp1). cbn [fst snd] in Hok_sr, Hle1, Hp1.
      assert (Hrest1 : layer_ok rest n1) by (eapply layer_ok_mono; eauto).
      simpl in Hl.
      destruct (IH rest n1 ltac:(lia) Hrest1) as [Hf2 Hm2].
      destruct (MergeResolver.pyramid_layer rest n1) as [[l' n2]|e] eqn:Hpl; cbv beta iota;
        [|split; [intros e' [= <-]; exact (Hf2 e eq_refl) | intros res; discriminate]].
      destruct (Hm2 (l', n2) eq_refl) as (Hok' & Hle2 & Hlen & Hp2). cbn [fst snd] in *.
      unfold ret. split; [intros ? ?; discriminate|]. intros res [= <-]. cbn [fst snd].
      split.
      { constructor; [|exact Hok'].
        inversion Hok_sr as [|? ? [Hw Hk] _]; subst. split; [|exact Hk].
        eapply wf_cmap_mono; eauto. }
      split; [lia|]. split; [simpl; now rewrite Hlen|].
      intros Hnd.
      assert (E : layer_references (sr_a :: sr_b :: rest) =
                  layer_references [sr_a; sr_b] ++ layer_references rest)
        by (simpl; now rewrite !app_assoc, app_nil_r).
      assert (E' : layer_references (sr :: l') = layer_references [sr] ++ layer_references l')
        by (simpl; now rewrite app_nil_r).
      rewrite E in Hnd |- *. rewrite E'. rewrite map_app in Hnd.
      apply Permutation_app.
      * apply Hp1. now apply NoDup_app_remove_r in Hnd.
      * apply Hp2. now apply NoDup_app_remove_l in Hnd.
Qed.


Lemma pyramid_inv fuel : forall l n res,
  layer_ok l n -> MergeResolver.pyramid fuel l n = Ok res ->
  layer_ok [fst res] (snd res) /\ (n <= snd res)%nat /\
  (NoDup (map r_oid (layer_references l)) ->
   Permutation (layer_references [fst res]) (layer_references l)).
Proof.
  induction fuel as [|fuel IH]; intros l n res Hok H; [discriminate|].
  destruct (pyramid_layer_props (List.length l) l n (le_n _) Hok) as [_ Hm].
  cbn [MergeResolver.pyramid] in H. unfold bind at 1 in H.
  destruct (MergeResolver.pyramid_layer l n) as [[l' n']|e] eqn:Hpl; [|discriminate].
  destruct (Hm (l', n') eq_refl) as (Hok' & Hle & _ & Hp). simpl in *.
  destruct l' as [|sr [|sr' l'']].
  - destruct (IH [] n' res Hok' H) as (Hr & Hle' & Hp').
    split; [exact Hr|]. split; [lia|]. intros Hnd. rewrite Hp'; auto.
    apply (NoDup_oids_perm _ _ (Permutation_sym (Hp Hnd))). exact Hnd.
  - unfold ret in H. injection H as <-. simpl. auto.
  - destruct (IH _ n' res Hok' H) as (Hr & Hle' & Hp').
    split; [exact Hr|]. split; [lia|]. intros Hnd. rewrite Hp'; auto.
    apply (NoDup_oids_perm _ _ (Permutation_sym (Hp Hnd))). exact Hnd.
Qed.

Lemma pyramid_empty fuel n : MergeResolver.pyramid fuel [] n = Err OutOfFuel.
Proof. induction fuel as [|fuel IH]; [reflexivity|]. exact IH. Qed.

(** [SerialResolver(portion).resolve()] *)
Lemma resolve_portion_props p n :
  (forall e, SerialResolver.resolve (SerialResolver.init p) n = Err e -> e = AttributeError) /\
  forall res, SerialResolver.resolve (SerialResolver.init p) n = Ok res ->
    layer_ok [fst res] (snd res) /\ (n <= snd res)%nat /\
    (NoDup (map r_oid p) -> Permutation (layer_references [fst res]) p).
Proof.
  split; [intros e; apply resolve_err, wf_cmap_nil|].
  intros res H.
  destruct (resolve_inv (SerialResolver.init p) n res (wf_cmap_nil n) H) as (Hw & Hle & Hk).
  split; [constructor; [split; [exact Hw | apply Hk; intros ? ? []] | constructor]|].
  split; [exact Hle|]. intros Hnd.
  unfold SerialResolver.resolve, bind, ret in H.
  destruct (SerialResolver.resolve_loop _ _ n) as [[cm n']|e] eqn:Hr; [|discriminate].
  injection H as <-. simpl. rewrite app_nil_r.
  apply (resolve_loop_conserves _ _ _ _ (wf_cmap_nil n)) in Hr as [_ Hp]; [exact Hp|].
  exact Hnd.
Qed.

Lemma resolve_portions_props ps : forall n,
  (forall e, MergeResolver.resolve_portions ps n = Err e -> e = AttributeError) /\
  forall res, MergeResolver.resolve_portions ps n = Ok res ->
    layer_ok (fst res) (snd res) /\ (n <= snd res)%nat /\
    List.length (fst res) = List.length ps /\
    (NoDup (map r_oid (List.concat ps)) ->
     Permutation (layer_references (fst res)) (List.concat ps)).
Proof.
  induction ps as [|p ps IH]; intros n.
  - simpl. unfold ret. split; [intros ? ?; discriminate|]. intros res [= <-]. simpl.
    repeat split; auto. constructor.
  - destruct (resolve_portion_props p n) as [Hf Hm].
    cbn [MergeResolver.resolve_portions]. unfold bind.
    destruct (SerialResolver.resolve (SerialResolver.init p) n) as [[sr n1]|e] eqn:Hr;
      cbv beta iota; [|split; [intros e' [= <-]; exact (Hf e eq_refl) | intros res; discriminate]].
    destruct (Hm (sr, n1) eq_refl) as (Hok1 & Hle1 & Hp1). simpl in *.
    destruct (IH n1) as [Hf2 Hm2].
    destruct (MergeResolver.resolve_portions ps n1) as [[srs n2]|e] eqn:Hrs; cbv beta iota;
      [|split; [intros e' [= <-]; exact (Hf2 e eq_refl) | intros res; discriminate]].
    destruct (Hm2 (srs, n2) eq_refl) as (Hok2 & Hle2 & Hlen & Hp2). simpl in *.
    unfold ret. split; [intros ? ?; discriminate|]. intros res [= <-]. simpl.
    split.
    { constructor; [|exact Hok2].
      inversion Hok1 as [|? ? [Hw Hk] _]; subst. split; [|exact Hk].
      eapply wf_cmap_mono; eauto. }
    split; [lia|]. split; [now rewrite Hlen|].
    intros Hnd. rewrite map_app in Hnd.
    change (layer_references (sr :: srs)) with (layer_references [sr] ++ layer_references srs)
      in Hp1 |- *.
    simpl in Hp1 |- *. rewrite app_nil_r in Hp1.
    apply Permutation_app.
    + apply Hp1. now apply NoDup_app_remove_r in Hnd.
    + apply Hp2. now apply NoDup_app_remove_l in Hnd.
Qed.

(** ** Blocking keys of a cluster *)

Lemma cluster_blocking_keys_In c bkn r v :
  In r (references c) -> assoc bkn (r_blocking_keys r) = Some v ->
  exists vs, cluster_blocking_keys c bkn = Some vs /\ In v vs.
Proof.
  intros Hr Ha. unfold cluster_blocking_keys.
  assert (Hin : existsb (String.eqb bkn) (cluster_bk_names c) = true).
  { apply existsb_exists. exists bkn. split; [|apply String.eqb_refl].
    unfold cluster_bk_names. apply nodup_In, in_flat_map. exists r. split; [exact Hr|].
    exact (assoc_In_fst _ _ _ Ha). }
  rewrite Hin. eexists; split; [reflexivity|].
  apply nodup_In, in_flat_map. exists r. rewrite Ha. simpl; auto.
Qed.

Lemma cluster_blocking_keys_inv c bkn vs v :
  cluster_blocking_keys c bkn = Some vs -> In v vs ->
  exists r, In r (references c) /\ assoc bkn (r_blocking_keys r) = Some v.
Proof.
  unfold cluster_blocking_keys. destruct existsb; [|discriminate]. intros [= <-] Hv.
  apply nodup_In, in_flat_map in Hv as (r & Hr & Hv).
  destruct (assoc bkn (r_blocking_keys r)) eqn:E; [|destruct Hv].
  destruct Hv as [<-|[]]. eauto.
Qed.

(** A cluster holding every reference of [c] has every common block of [c]. *)
Lemma common_block_superset c m c3 :
  (forall r, In r (references c) -> In r (references m)) ->
  has_common_block c c3 = true -> has_common_block m c3 = true.
Proof.
  intros Hsub H. apply has_common_block_iff in H as (bkn & vs1 & vs3 & E1 & E3 & v & Hv1 & Hv3).
  destruct (cluster_blocking_keys_inv c bkn vs1 v E1 Hv1) as (r & Hr & Ha).
  destruct (cluster_blocking_keys_In m bkn r v (Hsub r Hr) Ha) as (vs & Em & Hv).
  apply has_common_block_iff. exists bkn, vs, vs3. eauto.
Qed.

(** ** Extra properties *)

(** [Cluster.weightsum] is [max(0, Cluster.compare)]: the same blocking
    check and double loop, clamped at 0 (and raising when [compare] does). *)
Theorem weightsum_max0_compare (c1 c2 : Cluster) :
  weightsum c1 c2 = option_map (Rmax 0) (cluster_compare c1 c2).
Proof.
  unfold weightsum, cluster_compare. destruct (negb (has_common_block c1 c2)).
  - simpl. f_equal. unfold Rmax. destruct (Rle_dec 0 0); lra.
  - destruct (compare_refs (references c1) (references c2) 0); simpl; [|reflexivity].
    now rewrite max0_Rmax.
Qed.

(** With probabilities [0 < false_match_probability < true_match_probability < 1],
    [_fellegi_sunter_adjustment] adds a positive weight on a field match and
    a negative one on a mismatch. *)
Theorem fellegi_sunter_adjustment_sign (tp fp : R) :
  0 < fp -> fp < tp -> tp < 1 ->
  0 < fellegi_sunter_adjustment true tp fp /\ fellegi_sunter_adjustment false tp fp < 0.
Proof.
  intros H0 H1 H2. unfold fellegi_sunter_adjustment. split.
  - apply ln_pos_of_gt1. unfold Rdiv. apply (Rmult_lt_reg_r fp); [lra|].
    rewrite Rmult_assoc, Rinv_l, Rmult_1_r, Rmult_1_l by lra. lra.
  - apply ln_neg_of_lt1.
    + unfold Rdiv. apply Rmult_lt_0_compat; [lra|]. apply Rinv_0_lt_compat. lra.
    + unfold Rdiv. apply (Rmult_lt_reg_r (1 - fp)); [lra|].
      rewrite Rmult_assoc, Rinv_l, Rmult_1_r, Rmult_1_l by lra. lra.
Qed.

(** [Cluster.merge] keeps every common block of its first cluster, and of
    its second one when their references have distinct oids: a merged
    cluster is never blocked from a cluster either part could be compared
    with. *)
Theorem merge_keeps_common_blocks (c1 c2 c3 : Cluster) (n : nat) :
  match merge c1 c2 n with
  | Ok (m, _) =>
      (has_common_block c1 c3 = true -> has_common_block m c3 = true) /\
      (NoDup (map r_oid (references c1 ++ references c2)) ->
       has_common_block c2 c3 = true -> has_common_block m c3 = true)
  | Err _ => False
  end.
Proof.
  unfold merge, bind, next_id, ret. cbv beta iota. split.
  - apply common_block_superset. intros r Hr. cbn [references].
    unfold ref_union. apply in_or_app. now left.
  - intros Hnd. apply common_block_superset. intros r Hr. cbn [references].
    rewrite (ref_union_disjoint _ _ Hnd). apply in_or_app. now right.
Qed.

(** Two clusters each holding a Reference whose class declares no
    BlockingKey (its [blocking_keys] is the dummy [{'BK': '0'}]) always have
    a common block. *)
Theorem no_blocking_key_common_block (c1 c2 : Cluster) (r1 r2 : Reference) :
  In r1 (references c1) -> In r2 (references c2) ->
  r_blocking_keys r1 = init_blocking_keys [] -> r_blocking_keys r2 = init_blocking_keys [] ->
  has_common_block c1 c2 = true.
Proof.
  intros H1 H2 E1 E2.
  assert (A1 : assoc "BK" (r_blocking_keys r1) = Some "0"%string) by now rewrite E1.
  assert (A2 : assoc "BK" (r_blocking_keys r2) = Some "0"%string) by now rewrite E2.
  destruct (cluster_blocking_keys_In c1 _ r1 _ H1 A1) as (vs1 & F1 & V1).
  destruct (cluster_blocking_keys_In c2 _ r2 _ H2 A2) as (vs2 & F2 & V2).
  apply has_common_block_iff. exists "BK"%string, vs1, vs2. eauto.
Qed.






(** [MergeResolver.resolve] with no reference never returns: there is no
    portion, so every layer of the pyramiding loop is empty and the loop,
    which only stops on a layer of one resolver, never stops. *)
Theorem merge_resolve_empty_loops (mr : MergeResolver.t) (n : nat) :
  (0 < MergeResolver.merge_unit_size mr)%nat -> MergeResolver.references mr = [] ->
  (exists m, MergeResolver.resolve mr = Some m /\ m n = Err OutOfFuel) /\
  MergeResolver.pyramid_layer [] n = Ok ([], n) /\
  forall fuel, MergeResolver.pyramid fuel [] n = Err OutOfFuel.
Proof.
  intros Hk Hr. split; [|split; [reflexivity | intros fuel; apply pyramid_empty]].
  unfold MergeResolver.resolve, MergeResolver.portions. rewrite Hr.
  destruct (MergeResolver.merge_unit_size mr) as [|k]; [lia|].
  eexists; split; [reflexivity|]. reflexivity.
Qed.


(** [MergeResolver.resolve] conserves references: on a well-formed map
    keyed by oids, when the references of its clusters and of its queue
    have distinct oids, the clusters of the new map hold the old ones'
    references and the queued references, each once. *)
Theorem merge_resolve_conserves (mr : MergeResolver.t) (n : nat) :
  wf_cmap (MergeResolver.cluster_map mr) n -> oid_keyed (MergeResolver.cluster_map mr) ->
  NoDup (map r_oid (flat_map references (map snd (MergeResolver.cluster_map mr)) ++
                    MergeResolver.references mr)) ->
  match MergeResolver.resolve mr with
  | Some m =>
      match m n with
      | Ok (mr', _) =>
          Permutation (flat_map references (map snd (MergeResolver.cluster_map mr')))
                      (flat_map references (map snd (MergeResolver.cluster_map mr)) ++
                       MergeResolver.references mr)
      | Err _ => True
      end
  | None => True
  end.
Proof.
  intros Hwf Hkey Hnd. unfold MergeResolver.resolve, MergeResolver.portions.
  destruct (MergeResolver.merge_unit_size mr) as [|k] eqn:Ek; [exact I|].
  destruct (slices_spec (S k) ltac:(lia) (List.length (MergeResolver.references mr))
              (MergeResolver.references mr) (le_n _)) as (Hcat & _ & _).
  set (ps := MergeResolver.slices _ _ _) in *.
  assert (Hnd0 : NoDup (map r_oid (MergeResolver.references mr)))
    by (rewrite map_app in Hnd; now apply NoDup_app_remove_l in Hnd).
  destruct (resolve_portions_props ps n) as [_ Hm1].
  unfold bind at 1.
  destruct (MergeResolver.resolve_portions ps n) as [[srs n1]|e] eqn:E1; [|exact I].
  destruct (Hm1 (srs, n1) eq_refl) as (Hok1 & Hle1 & _ & Hp1). cbn [fst snd] in *.
  rewrite Hcat in Hp1. specialize (Hp1 Hnd0).
  unfold bind at 1.
  destruct (MergeResolver.pyramid (S (List.length srs)) srs n1) as [[new_sr n2]|e] eqn:E2;
    [|exact I].
  destruct (pyramid_inv _ _ _ (new_sr, n2) Hok1 E2) as (_ & Hle2 & Hp2). cbn [fst snd] in *.
  specialize (Hp2 (NoDup_oids_perm _ _ (Permutation_sym Hp1) Hnd0)).
  assert (Hnew : Permutation (flat_map references (SerialResolver.get_clusters new_sr))
                             (MergeResolver.references mr)).
  { rewrite <- Hp1, <- Hp2. simpl. now rewrite app_nil_r. }
  unfold SerialResolver.resolve_clusters, bind, ret.
  cbn [SerialResolver.add_clusters SerialResolver.clusters SerialResolver.cluster_map
       SerialResolver.init_clusters app].
  change (fold_left (fun cm c => dict_set (c_oid c) c cm)
            (map snd (MergeResolver.cluster_map mr)) [])
    with (SerialResolver.cluster_map
            (SerialResolver.init_clusters (map snd (MergeResolver.cluster_map mr)))).
  rewrite (init_clusters_get_clusters _ (proj1 Hwf) Hkey).
  assert (Hwf2 : wf_cmap (MergeResolver.cluster_map mr) n2) by (eapply wf_cmap_mono; [exact Hwf | lia]).
  destruct (SerialResolver.resolve_clusters_loop _ _ n2) as [[cm n3]|e] eqn:E3; [|exact I].
  cbn [MergeResolver.cluster_map SerialResolver.cluster_map].
  rewrite (resolve_clusters_loop_conserves (SerialResolver.get_clusters new_sr) _ _ (cm, n3) Hwf2); [| |exact E3].
  - apply Permutation_app_head. exact Hnew.
  - apply (NoDup_oids_perm _ _ (Permutation_app_head _ (Permutation_sym Hnew))). exact Hnd.
Qed.

(** With a positive [merge_unit_size] [k], the portions of
    [MergeResolver.resolve] cut the references, in order, into non-empty
    slices of at most [k] references. *)
Theorem portions_partition (k : nat) (refs : list Reference) :
  (0 < k)%nat ->
  exists ps, MergeResolver.portions k refs = Some ps /\ List.concat ps = refs /\
    Forall (fun p => p <> [] /\ (List.length p <= k)%nat) ps.
Proof.
  intros Hk. destruct k as [|k']; [lia|].
  destruct (slices_spec (S k') Hk (List.length refs) refs (le_n _)) as (Hc & Hf & _).
  eexists; split; [reflexivity|]. auto.
Qed.

Lemma cluster_solve_loop_result fuel : forall cm changed n res,
  wf_cmap cm n -> cluster_solve_loop fuel cm changed n = Ok res ->
  ((snd (fst res) = changed /\ fst (fst res) = cm /\ snd res = n) \/
   (snd (fst res) = true /\ (List.length (fst (fst res)) < List.length cm)%nat)) /\
  forall o1 c1 o2 c2 w, In (o1, c1) (fst (fst res)) -> In (o2, c2) (fst (fst res)) ->
    (o1 < o2)%nat -> weightsum c1 c2 = Some w -> w <= 0.
Proof.
  induction fuel as [|fuel IH]; intros cm changed n res Hwf H; [discriminate|].
  cbn [cluster_solve_loop] in H. unfold bind at 1 in H.
  pose proof (cluster_pass_cases cm n (proj1 Hwf)) as Hc.
  destruct (cluster_pass cm n) as [[[cm1 [|]] n1]|e] eqn:Hp; [| |discriminate].
  - unfold ret in H. injection H as <-. cbn [fst snd].
    destruct Hc as [(_ & -> & -> & Hopt)|(? & _)]; [|discriminate].
    split; [left; auto | exact Hopt].
  - destruct (cluster_pass_false_length cm n cm1 n1 Hwf Hp) as (HL & _ & Hwf1).
    destruct (IH cm1 true n1 res Hwf1 H) as [[(-> & -> & _)|(-> & Hlt)] Hopt];
      (split; [right; split; [reflexivity | lia] | exact Hopt]).
Qed.

(** [_cluster_solve] returns [changed = False] exactly when it merged
    nothing (the map and the counter are those it got), otherwise a map
    with fewer clusters; and the map it returns is solved: no pair of
    entries [oid_1 < oid_2] has a positive [weightsum]. *)
Theorem cluster_solve_changed (cm : cmap) (n : nat) :
  wf_cmap cm n ->
  match cluster_solve cm n with
  | Ok ((cm', changed), n') =>
      (changed = false -> cm' = cm /\ n' = n) /\
      (changed = true -> (List.length cm' < List.length cm)%nat) /\
      forall o1 c1 o2 c2 w, In (o1, c1) cm' -> In (o2, c2) cm' -> (o1 < o2)%nat ->
        weightsum c1 c2 = Some w -> w <= 0
  | Err _ => True
  end.
Proof.
  intros Hwf. destruct (cluster_solve cm n) as [[[cm' changed] n']|e] eqn:H; [|exact I].
  destruct (cluster_solve_loop_result _ cm false n _ Hwf H) as [Hcase Hopt]. cbn [fst snd] in *.
  split; [|split; [|exact Hopt]].
  - intros ->. destruct Hcase as [(_ & -> & ->)|(? & _)]; [auto | discriminate].
  - intros ->. destruct Hcase as [(? & _)|(_ & Hlt)]; [discriminate | exact Hlt].
Qed.

(** ** Instances of the extra properties *)

Lemma fellegi_sunter_adjustment_sign_witness :
  (0 < 1 / 10 /\ 1 / 10 < 9 / 10 /\ 9 / 10 < 1) /\
  0 < fellegi_sunter_adjustment true (9 / 10) (1 / 10) /\
  fellegi_sunter_adjustment false (9 / 10) (1 / 10) < 0.
Proof.
  split; [lra|]. apply fellegi_sunter_adjustment_sign; lra.
Defined.

Lemma no_blocking_key_common_block_witness :
  has_common_block {| c_oid := 0; references := [r_cheese] |}
                   {| c_oid := 1; references := [r_yogurt] |} = true.
Proof.
  apply (no_blocking_key_common_block _ _ r_cheese r_yogurt); simpl; auto.
Defined.

Lemma wf_cm_cheese : wf_cmap cm_cheese 1.
Proof.
  split; [repeat constructor; simpl; tauto|]. simpl. intros k [<-|[]]. lia.
Qed.

Lemma oid_keyed_cm_cheese : oid_keyed cm_cheese.
Proof. intros k c [[= <- <-]|[]]. reflexivity. Qed.





Lemma merge_resolve_empty_loops_witness :
  ((0 < 500)%nat /\ MergeResolver.references (MergeResolver.init [] 500) = []) /\
  (exists m, MergeResolver.resolve (MergeResolver.init [] 500) = Some m /\ m 0%nat = Err OutOfFuel) /\
  MergeResolver.pyramid_layer [] 0%nat = Ok ([], 0%nat) /\
  forall fuel, MergeResolver.pyramid fuel [] 0%nat = Err OutOfFuel.
Proof.
  split; [split; [lia | reflexivity]|].
  exact (merge_resolve_empty_loops (MergeResolver.init [] 500) 0%nat ltac:(simpl; lia) eq_refl).
Defined.


Lemma merge_resolve_conserves_witness :
  (wf_cmap (MergeResolver.cluster_map mr_example) 1 /\
   oid_keyed (MergeResolver.cluster_map mr_example) /\
   NoDup (map r_oid (flat_map references (map snd (MergeResolver.cluster_map mr_example)) ++
                     MergeResolver.references mr_example))) /\
  match MergeResolver.resolve mr_example with
  | Some m =>
      match m 1%nat with
      | Ok (mr', _) =>
          Permutation (flat_map references (map snd (MergeResolver.cluster_map mr')))
                      (flat_map references (map snd (MergeResolver.cluster_map mr_example)) ++
                       MergeResolver.references mr_example)
      | Err _ => True
      end
  | None => True
  end.
Proof.
  assert (Hnd : NoDup (map r_oid (flat_map references (map snd (MergeResolver.cluster_map mr_example)) ++
                                  MergeResolver.references mr_example)))
    by (simpl; repeat constructor; simpl; intuition discriminate).
  split; [split; [exact wf_cm_cheese | split; [exact oid_keyed_cm_cheese | exact Hnd]]|].
  exact (merge_resolve_conserves mr_example 1%nat wf_cm_cheese oid_keyed_cm_cheese Hnd).
Defined.

Lemma portions_partition_witness :
  (0 < 2)%nat /\
  exists ps, MergeResolver.portions 2 [r_cheese; r_yogurt; r_long] = Some ps /\
    List.concat ps = [r_cheese; r_yogurt; r_long] /\
    Forall (fun p => p <> [] /\ (List.length p <= 2)%nat) ps.
Proof.
  split; [lia|]. exact (portions_partition 2%nat [r_cheese; r_yogurt; r_long] ltac:(lia)).
Defined.

Lemma cluster_solve_changed_witness :
  wf_cmap [(0%nat, {| c_oid := 0; references := [r_cheese] |});
           (1%nat, {| c_oid := 1; references := [r_yogurt] |})] 2 /\
  match cluster_solve [(0%nat, {| c_oid := 0; references := [r_cheese] |});
                       (1%nat, {| c_oid := 1; references := [r_yogurt] |})] 2%nat with
  | Ok ((cm', changed), n') =>
      (changed = false -> cm' = [(0%nat, {| c_oid := 0; references := [r_cheese] |});
                                 (1%nat, {| c_oid := 1; references := [r_yogurt] |})] /\
                          n' = 2%nat) /\
      (changed = true -> (List.length cm' < 2)%nat) /\
      forall o1 c1 o2 c2 w, In (o1, c1) cm' -> In (o2, c2) cm' -> (o1 < o2)%nat ->
        weightsum c1 c2 = Some w -> w <= 0
  | Err _ => True
  end.
Proof.
  assert (Hwf : wf_cmap [(0%nat, {| c_oid := 0; references := [r_cheese] |});
                         (1%nat, {| c_oid := 1; references := [r_yogurt] |})] 2).
  { split; [repeat constructor; simpl; intuition discriminate|].
    simpl. intros k [<-|[<-|[]]]; lia. }
  split; [exact Hwf | exact (cluster_solve_changed _ 2%nat Hwf)].
Defined.
